(** * Schema migration runner (z-monitor/scripts/migrate.py)

    A shallow embedding of [get_current_version], [apply_migration] and
    [main], together with the parts of the Python runtime they rest on:
    [pathlib] names ([glob], [stem], the ordering used by [sorted]),
    [str.split], [int], and the transaction behaviour of the [sqlite3]
    module in its default (legacy) transaction mode. *)

From Stdlib Require Import ZArith List Bool Ascii String Lia.
From Stdlib Require Import Sorted Permutation.
Import ListNotations.

Local Open Scope Z_scope.

(** ** File names *)

Module Name.

Definition code (c : ascii) : Z := Z.of_N (N_of_ascii c).

(** [int] strips the ASCII white space recognised by [Py_ISSPACE]:
    space, and the control characters 9 to 13. *)
Definition is_space (c : ascii) : bool :=
  (code c =? 32) || ((9 <=? code c) && (code c <=? 13)).

Definition is_digit (c : ascii) : bool :=
  (48 <=? code c) && (code c <=? 57).

Definition digit_value (c : ascii) : Z := code c - 48.

Fixpoint lstrip (s : string) : string :=
  match s with
  | String c s' => if is_space c then lstrip s' else s
  | EmptyString => EmptyString
  end.

Fixpoint rstrip (s : string) : string :=
  match s with
  | EmptyString => EmptyString
  | String c s' =>
      match rstrip s' with
      | EmptyString => if is_space c then EmptyString else String c EmptyString
      | r => String c r
      end
  end.

(** Decimal value of a run of digits, most significant first; [None] as
    soon as a character is not a digit. *)
Fixpoint digits (acc : Z) (s : string) : option Z :=
  match s with
  | EmptyString => Some acc
  | String c s' =>
      if is_digit c then digits (10 * acc + digit_value c) s' else None
  end.

Definition nonempty_digits (s : string) : option Z :=
  match s with
  | EmptyString => None
  | _ => digits 0 s
  end.

(** [int(s)] in base ten on a [str] of ASCII characters: surrounding
    white space is dropped, one sign is allowed, at least one digit must
    follow.  [None] stands for [ValueError].  Digit-group underscores are
    left out: the argument is always a piece of [split('_')] and holds
    none.  The digits and white space of other scripts are not covered:
    the function is [int] on ASCII strings ([is_ascii] below), and what
    is stated of names that need not parse carries that hypothesis. *)
Definition py_int (s : string) : option Z :=
  match rstrip (lstrip s) with
  | String "+"%char r => nonempty_digits r
  | String "-"%char r => option_map Z.opp (nonempty_digits r)
  | t => nonempty_digits t
  end.

(** [s.split('_')[0]]: everything before the first underscore, the whole
    string when there is none.  The list is never empty, so the
    [IndexError] branch of the handler is dead. *)
Fixpoint split_first (s : string) : string :=
  match s with
  | EmptyString => EmptyString
  | String c s' => if Ascii.eqb c "_"%char then EmptyString else String c (split_first s')
  end.

(** [name.rfind('.')] *)
Fixpoint rfind_dot (s : string) : option nat :=
  match s with
  | EmptyString => None
  | String c s' =>
      match rfind_dot s' with
      | Some i => Some (S i)
      | None => if Ascii.eqb c "."%char then Some O else None
      end
  end.

(** [PurePath.stem]: the name up to its last dot, unless that dot is the
    first or the last character. *)
Definition stem (name : string) : string :=
  match rfind_dot name with
  | Some i =>
      if (Nat.ltb 0 i && Nat.ltb i (String.length name - 1)%nat)%bool
      then substring 0 i name
      else name
  | None => name
  end.

(** Does [name] match the pattern [*.sql]?  The star also matches the
    empty string and leading dots. *)
Definition is_sql (name : string) : bool :=
  let n := String.length name in
  (Nat.leb 4 n && String.eqb (substring (n - 4)%nat 4 name) ".sql"%string)%bool.

(** A name of ASCII characters only.  On such names [py_int] is [int]:
    the digits and the white space of other scripts, which [int] accepts
    as well, do not occur. *)
Definition is_ascii (name : string) : bool :=
  forallb (fun c => code c <? 128) (list_ascii_of_string name).

(** The version the loop of [main] reads off a file name. *)
Definition parse_version (name : string) : option Z :=
  py_int (split_first (stem name)).

End Name.

(** [sorted] on paths of one directory orders them by name, character by
    character.  It is a stable sort; on a total order every stable sort
    returns the same list, computed here by insertion. *)
Fixpoint insert_sorted (x : string) (l : list string) : list string :=
  match l with
  | [] => [x]
  | y :: l' => if String.leb x y then x :: l else y :: insert_sorted x l'
  end.

Definition sorted (l : list string) : list string :=
  fold_right insert_sorted [] l.

(** [migrations_dir.glob("*.sql")] over the entries of the directory. *)
Definition glob_sql (entries : list string) : list string :=
  filter Name.is_sql entries.


(** ** The store

    The database file holds the application's data and the table
    [schema_version].  What a migration body does is opaque to the runner;
    a body is a batch of statements, each a partial function ([None]: the
    statement raises a [sqlite3.Error]) or one of the transaction-control
    statements.  [Exec] is a statement on the application's tables; [Sql]
    is any statement, which may read and write the rows of
    [schema_version] as well, or drop the table.  The table has the
    columns [get_current_version] declares; a body that puts a table of
    another shape under that name is not covered.

    The rows of [schema_version] are kept in the order in which they were
    inserted.  The program never reads them in an order, only their
    maximum, and nothing stated below depends on the order of a table
    scan. *)

Record VersionRecord := {
  version : Z;               (* INTEGER PRIMARY KEY *)
  applied_at : string;       (* TEXT NOT NULL *)
  description : string;      (* TEXT *)
  migration_type : string    (* TEXT DEFAULT 'schema' *)
}.

Inductive exn :=
| OperationalError    (* sqlite3.Error: bad SQL, missing table, nested BEGIN *)
| IntegrityError      (* sqlite3.Error: UNIQUE constraint failed *)
| OverflowError       (* Python int too large to convert to SQLite INTEGER *)
| OSError.            (* any other failure of open() or read() *)

Section Store.

Variable data : Type.

Record database := {
  user_data : data;
  schema_version : option (list VersionRecord)   (* None: no such table *)
}.

Inductive statement :=
| Begin
| Commit
| Rollback
| Exec (f : data -> option data)
| Sql (f : database -> option database).

(** A connection: what is committed to the file, and the working copy
    of the open transaction when there is one. *)
Record connection := {
  disk : database;
  txn : option database
}.

Definition connect (db : database) : connection :=
  {| disk := db; txn := None |}.

(** [conn.close()] without a commit drops the open transaction. *)
Definition close (c : connection) : database := disk c.

Definition visible (c : connection) : database :=
  match txn c with
  | Some w => w
  | None => disk c
  end.

Definition with_data (db : database) (d : data) : database :=
  {| user_data := d; schema_version := schema_version db |}.

(** SQLite stores INTEGER in 64 bits; binding a larger Python int raises
    [OverflowError]. *)
Definition fits_int64 (v : Z) : bool :=
  (- 2 ^ 63 <=? v) && (v <? 2 ^ 63).

Definition has_version (v : Z) (rows : list VersionRecord) : bool :=
  existsb (fun r => version r =? v) rows.

(** What the declaration [version INTEGER PRIMARY KEY] lets a statement
    leave in the table: 64-bit keys, each once. *)
Fixpoint unique_keys (rows : list VersionRecord) : bool :=
  match rows with
  | [] => true
  | r :: rest => negb (has_version (version r) rest) && unique_keys rest
  end.

Definition storable (db : database) : bool :=
  match schema_version db with
  | None => true
  | Some rows => forallb (fun r => fits_int64 (version r)) rows && unique_keys rows
  end.

(** One SQL statement handed to SQLite as it is.  Outside a transaction
    SQLite is in autocommit mode and a successful statement reaches the
    file at once.  A failing statement changes nothing. *)
Definition exec_statement (c : connection) (s : statement) : option connection :=
  match s, txn c with
  | Begin, None => Some {| disk := disk c; txn := Some (disk c) |}
  | Begin, Some _ => None
  | Commit, Some w => Some {| disk := w; txn := None |}
  | Commit, None => None
  | Rollback, Some _ => Some {| disk := disk c; txn := None |}
  | Rollback, None => None
  | Exec f, Some w =>
      match f (user_data w) with
      | Some d => Some {| disk := disk c; txn := Some (with_data w d) |}
      | None => None
      end
  | Exec f, None =>
      match f (user_data (disk c)) with
      | Some d => Some {| disk := with_data (disk c) d; txn := None |}
      | None => None
      end
  | Sql f, Some w =>
      match f w with
      | Some w' =>
          if storable w' then Some {| disk := disk c; txn := Some w' |}
          else None
      | None => None
      end
  | Sql f, None =>
      match f (disk c) with
      | Some d' =>
          if storable d' then Some {| disk := d'; txn := None |} else None
      | None => None
      end
  end.

(** [conn.commit()] and [conn.rollback()]: no-ops when no transaction is
    open. *)
Definition commit (c : connection) : connection :=
  {| disk := visible c; txn := None |}.

Definition rollback (c : connection) : connection :=
  {| disk := disk c; txn := None |}.

Fixpoint run_statements (c : connection) (sql : list statement)
  : connection * bool :=
  match sql with
  | [] => (c, true)
  | s :: rest =>
      match exec_statement c s with
      | Some c' => run_statements c' rest
      | None => (c, false)
      end
  end.

(** [cursor.executescript(sql)]: "If there is a pending transaction, an
    implicit COMMIT statement is executed first.  No other implicit
    transaction control is performed."  The statements then run one by
    one until the first that fails; [false] stands for the
    [sqlite3.Error] raised there. *)
Definition executescript (c : connection) (sql : list statement)
  : connection * bool :=
  run_statements (commit c) sql.

(** [cursor.execute("INSERT INTO schema_version ...", (version, stem))]:
    the statement is prepared first, which fails when the table is not
    there; then the parameters are bound, which fails on a version that
    does not fit; then the row is inserted, which fails on a version that
    is there.  In legacy transaction mode the module opens a transaction
    before an INSERT when none is open. *)
Definition insert_version (c : connection) (r : VersionRecord)
  : exn + connection :=
  let w := visible c in
  match schema_version w with
  | None => inl OperationalError
  | Some rows =>
      if negb (fits_int64 (version r)) then inl OverflowError
      else if has_version (version r) rows then inl IntegrityError
      else inr {| disk := disk c;
                  txn := Some {| user_data := user_data w;
                                 schema_version := Some (rows ++ [r]) |} |}
  end.

(** [SELECT MAX(version)]: NULL on an empty table. *)
Definition sql_max (rows : list VersionRecord) : option Z :=
  match rows with
  | [] => None
  | r :: rest => Some (fold_left Z.max (map version rest) (version r))
  end.

Definition create_if_not_exists (db : database) : database :=
  match schema_version db with
  | Some _ => db
  | None => {| user_data := user_data db; schema_version := Some [] |}
  end.

Definition get_current_version (c : connection) : connection * Z :=
  let c1 :=
    match txn c with
    | Some w => {| disk := disk c; txn := Some (create_if_not_exists w) |}
    | None => {| disk := create_if_not_exists (disk c); txn := None |}
    end in
  let result :=
    match schema_version (visible c1) with
    | Some rows => sql_max rows
    | None => None
    end in
  (c1, match result with Some v => v | None => 0 end).

End Store.

Arguments user_data {data}.
Arguments schema_version {data}.
Arguments Begin {data}.
Arguments Commit {data}.
Arguments Rollback {data}.
Arguments Exec {data}.
Arguments Sql {data}.
Arguments storable {data}.
Arguments disk {data}.
Arguments txn {data}.
Arguments connect {data}.
Arguments close {data}.
Arguments visible {data}.
Arguments with_data {data}.
Arguments exec_statement {data}.
Arguments commit {data}.
Arguments rollback {data}.
Arguments run_statements {data}.
Arguments executescript {data}.
Arguments insert_version {data}.
Arguments create_if_not_exists {data}.
Arguments get_current_version {data}.

(** ** The runner *)

(** What [open(migration_file).read()] yields.  The text of a file is kept
    for the diagnostic; [body] is the batch of statements SQLite makes of
    it. *)
Inductive read_result (data : Type) :=
| Contents (text : string) (body : list (statement data))
| FileNotFound
| ReadFailure.

Arguments Contents {data}.
Arguments FileNotFound {data}.
Arguments ReadFailure {data}.

(** The surroundings of one invocation: the entries of the migrations
    directory in the order the file system lists them ([None]: there is no
    such directory), the contents of its files, and the clock read by
    [datetime('now')] when the row of a version is inserted. *)
Record world (data : Type) := {
  migrations_dir : option (list string);
  open_read : string -> read_result data;
  now : Z -> string
}.

Arguments migrations_dir {data}.
Arguments open_read {data}.
Arguments now {data}.

(** The lines written to standard output. *)
Inductive line :=
| DirectoryNotFound
| CurrentVersion (v : Z)
| NoMigrationFiles
| Applying (v : Z) (name : string)
| AppliedSuccessfully (v : Z)
| FailedDatabase (v : Z) (e : exn)
| FailedFile (name : string)
| FailedSql (excerpt : string)
| FailedFileNotFound (v : Z)
| FailedUnexpected (v : Z) (e : exn)
| SkippingInvalid (name : string)
| StoppedAt (v : Z)
| AppliedCount (n : nat)
| NoMigrationsToApply
| UpToDate (v : Z).

Section Runner.

Variable data : Type.
Variable w : world data.

(** The lines of the [except sqlite3.Error] handler. *)
Definition database_error (v : Z) (name text : string) : list line :=
  [FailedDatabase v OperationalError; FailedFile name] ++
  (if String.eqb text EmptyString then []
   else [FailedSql (substring 0 200 text)]).

Definition integrity_error (v : Z) (name text : string) : list line :=
  [FailedDatabase v IntegrityError; FailedFile name] ++
  (if String.eqb text EmptyString then []
   else [FailedSql (substring 0 200 text)]).

(** The row of [INSERT INTO schema_version (version, applied_at,
    description, migration_type) VALUES (?, datetime('now'), ?,
    'schema')] with the parameters [(version, migration_file.stem)]. *)
Definition record_of (migration_file : string) (version : Z) : VersionRecord :=
  {| version := version;
     applied_at := now w version;
     description := Name.stem migration_file;
     migration_type := "schema" |}.

Definition apply_migration (conn : connection data) (migration_file : string)
    (version : Z) : bool * connection data * list line :=
  let hd := Applying version migration_file in
  match open_read w migration_file with
  | FileNotFound => (false, conn, [hd; FailedFileNotFound version])
  | ReadFailure => (false, rollback conn, [hd; FailedUnexpected version OSError])
  | Contents text sql =>
      match exec_statement conn Begin with
      | None =>
          (false, rollback conn,
           hd :: database_error version migration_file text)
      | Some c1 =>
          match executescript c1 sql with
          | (c2, false) =>
              (false, rollback c2,
               hd :: database_error version migration_file text)
          | (c2, true) =>
              match insert_version c2 (record_of migration_file version) with
              | inr c3 => (true, commit c3, [hd; AppliedSuccessfully version])
              | inl IntegrityError =>
                  (false, rollback c2,
                   hd :: integrity_error version migration_file text)
              | inl OperationalError =>
                  (false, rollback c2,
                   hd :: database_error version migration_file text)
              | inl e => (false, rollback c2, [hd; FailedUnexpected version e])
              end
          end
      end
  end.

(** How the [for] loop of [main] ends. *)
Inductive loop_end :=
| Completed
| Failed (v : Z).

Record loop_state := {
  ending : loop_end;
  conn_after : connection data;
  applied_count : nat;
  printed : list line
}.

Fixpoint migrate_loop (current_version : Z) (migration_files : list string)
    (conn : connection data) (count : nat) : loop_state :=
  match migration_files with
  | [] => {| ending := Completed; conn_after := conn;
             applied_count := count; printed := [] |}
  | migration_file :: rest =>
      match Name.parse_version migration_file with
      | None =>
          let r := migrate_loop current_version rest conn count in
          {| ending := ending r; conn_after := conn_after r;
             applied_count := applied_count r;
             printed := SkippingInvalid migration_file :: printed r |}
      | Some version =>
          if version >? current_version then
            match apply_migration conn migration_file version with
            | (true, conn', out) =>
                let r := migrate_loop current_version rest conn' (S count) in
                {| ending := ending r; conn_after := conn_after r;
                   applied_count := applied_count r;
                   printed := out ++ printed r |}
            | (false, conn', out) =>
                {| ending := Failed version; conn_after := conn';
                   applied_count := count;
                   printed := out ++ [StoppedAt version] |}
            end
          else migrate_loop current_version rest conn count
      end
  end.

(** One invocation of the script: its exit status, the database file it
    leaves, and its output. *)
Record run := {
  exit_code : Z;
  store : database data;
  stdout : list line;
  applied : nat            (* applied_count when the process exits *)
}.

Definition main (db : database data) : run :=
  match migrations_dir w with
  | None =>
      {| exit_code := 1; store := db; stdout := [DirectoryNotFound];
         applied := 0 |}
  | Some entries =>
      let conn := connect db in
      let (conn, current_version) := get_current_version conn in
      let migration_files := sorted (glob_sql entries) in
      match migration_files with
      | [] =>
          {| exit_code := 0; store := close conn;
             stdout := [CurrentVersion current_version; NoMigrationFiles];
             applied := 0 |}
      | _ =>
          let r := migrate_loop current_version migration_files conn 0 in
          match ending r with
          | Failed _ =>
              {| exit_code := 1; store := close (conn_after r);
                 stdout := CurrentVersion current_version :: printed r;
                 applied := applied_count r |}
          | Completed =>
              let (conn', final_version) :=
                get_current_version (conn_after r) in
              {| exit_code := 0; store := close conn';
                 stdout :=
                   CurrentVersion current_version :: printed r ++
                   [if Nat.ltb 0 (applied_count r)
                    then AppliedCount (applied_count r)
                    else NoMigrationsToApply;
                    UpToDate final_version];
                 applied := applied_count r |}
          end
      end
  end.

End Runner.

Arguments record_of {data}.
Arguments apply_migration {data}.
Arguments migrate_loop {data}.
Arguments main {data}.
Arguments ending {data}.
Arguments conn_after {data}.
Arguments applied_count {data}.
Arguments printed {data}.
Arguments exit_code {data}.
Arguments store {data}.
Arguments stdout {data}.
Arguments applied {data}.


(** ** Observations on a run *)

(** The versions recorded in the ledger of a database, oldest row
    first. *)
Definition versions {data} (db : database data) : list Z :=
  match schema_version db with
  | Some rows => map version rows
  | None => []
  end.

(** The current version as a fresh connection reads it. *)
Definition current_version {data} (db : database data) : Z :=
  snd (get_current_version (connect db)).

(** A connection between two statements of the runner: no transaction is
    open. *)
Definition idle {data} (c : connection data) : Prop := txn c = None.

(** The versions whose application was started, in the order of the
    output, and those that went through. *)
Fixpoint attempted (out : list line) : list Z :=
  match out with
  | [] => []
  | Applying v _ :: rest => v :: attempted rest
  | _ :: rest => attempted rest
  end.

Fixpoint succeeded (out : list line) : list Z :=
  match out with
  | [] => []
  | AppliedSuccessfully v :: rest => v :: succeeded rest
  | _ :: rest => succeeded rest
  end.

(** The names the loop warns about. *)
Fixpoint warnings (out : list line) : list string :=
  match out with
  | [] => []
  | SkippingInvalid name :: rest => name :: warnings rest
  | _ :: rest => warnings rest
  end.

(** The versions discovery reads off a list of files, in the order of
    the list; files whose name does not parse are left out. *)
Fixpoint parsed (migration_files : list string) : list Z :=
  match migration_files with
  | [] => []
  | f :: rest =>
      match Name.parse_version f with
      | Some v => v :: parsed rest
      | None => parsed rest
      end
  end.

Definition discovered (entries : list string) : list Z :=
  parsed (sorted (glob_sql entries)).

(** The candidates of a run: the discovered versions above the current
    one. *)
Definition candidates (current : Z) (entries : list string) : list Z :=
  filter (fun v => v >? current) (discovered entries).

(** The ordinal of a name is written with exactly [width] digits. *)
Definition all_digits (s : string) : bool :=
  forallb Name.is_digit (list_ascii_of_string s).

Definition fixed_width (width : nat) (name : string) : Prop :=
  let ordinal := Name.split_first (Name.stem name) in
  String.length ordinal = width /\ all_digits ordinal = true.

(** A body none of whose statements can fail, whatever the state of the
    connection. *)
Definition infallible {data} (body : list (statement data)) : Prop :=
  forall c, snd (run_statements c body) = true.

(** A directory of ASCII names. *)
Definition ascii_names (entries : list string) : Prop :=
  Forall (fun f => Name.is_ascii f = true) entries.

Definition ascii_directory {data} (w : world data) : Prop :=
  match migrations_dir w with
  | Some entries => ascii_names entries
  | None => True
  end.

(** A statement that leaves [schema_version] as it is.  The statements
    on the application's tables and the transaction control do; of an
    arbitrary statement it is a condition. *)
Definition keeps_ledger {data} (s : statement data) : Prop :=
  match s with
  | Sql f => forall d d', f d = Some d' -> schema_version d' = schema_version d
  | _ => True
  end.

(** A file whose body, if it can be read, does not write
    [schema_version], and surroundings in which no body does. *)
Definition body_keeps_ledger {data} (w : world data) (f : string) : Prop :=
  forall text body,
    open_read w f = Contents text body -> Forall keeps_ledger body.

Definition ledger_safe {data} (w : world data) : Prop :=
  forall f, body_keeps_ledger w f.

(** The order [sorted] puts the names in. *)
Definition le_name (a b : string) : Prop := String.leb a b = true.

(** The ledger as the file and as the open transaction show it. *)
Definition same_ledger {data} (rows : option (list VersionRecord))
    (c : connection data) : Prop :=
  schema_version (disk c) = rows /\ schema_version (visible c) = rows.

(** The lines [apply_migration] can write, and those of the loop. *)
Definition from_apply (l : line) : bool :=
  match l with
  | Applying _ _ | AppliedSuccessfully _ | FailedDatabase _ _ | FailedFile _
  | FailedSql _ | FailedFileNotFound _ | FailedUnexpected _ _ => true
  | _ => false
  end.

Definition from_loop (l : line) : bool :=
  match l with
  | SkippingInvalid _ | StoppedAt _ => true
  | _ => from_apply l
  end.

(** The diagnostic of a failed application of version [v]. *)
Definition diagnostic_of (v : Z) (l : line) : bool :=
  match l with
  | FailedDatabase u _ | FailedFileNotFound u | FailedUnexpected u _ => u =? v
  | _ => false
  end.

Definition unparsable (name : string) : bool :=
  match Name.parse_version name with
  | Some _ => false
  | None => true
  end.

(** The loop as [main] starts it on the entries of the directory. *)
Definition loop_of {data} (w : world data) (db : database data)
    (entries : list string) : loop_state data :=
  migrate_loop w (current_version db) (sorted (glob_sql entries))
    (connect (create_if_not_exists db)) 0.

(** The lines that tell of a failed application. *)
Definition from_failure (l : line) : bool :=
  match l with
  | FailedDatabase _ _ | FailedFileNotFound _ | FailedUnexpected _ _
  | StoppedAt _ => true
  | _ => false
  end.

(** The two lines [main] ends with after a loop that went through. *)
Definition summary {data} (r : loop_state data) : list line :=
  [if Nat.ltb 0 (applied_count r) then AppliedCount (applied_count r)
   else NoMigrationsToApply;
   UpToDate (current_version (disk (conn_after r)))].

(** The rows of the ledger a connection sees. *)
Definition ledger_rows {data} (c : connection data) : list VersionRecord :=
  match schema_version (visible c) with
  | Some rows => rows
  | None => []
  end.

(** A run reports its final state: the current version of the store it
    leaves, read from the ledger, and the number of migrations it applied
    (or that there was none to apply). *)
Definition reports_count {data} (m : run data) : Prop :=
  In (AppliedCount (applied m)) (stdout m) \/
  (applied m = 0%nat /\ In NoMigrationsToApply (stdout m)).

Definition reports_final_state {data} (m : run data) : Prop :=
  In (UpToDate (current_version (store m))) (stdout m) /\ reports_count m.

(** Strictly ascending. *)
Definition ascending (l : list Z) : Prop := StronglySorted Z.lt l.

(** The same surroundings with one entry of the directory taken away. *)
Definition other_than (name : string) (f : string) : bool :=
  negb (String.eqb f name).

Definition without {data} (name : string) (w : world data) : world data :=
  {| migrations_dir := option_map (filter (other_than name)) (migrations_dir w);
     open_read := open_read w;
     now := now w |}.

(** A body that opens a transaction of its own and then only runs
    statements on the data: [BEGIN; ...]. *)
Definition own_transaction {data} (fs : list (data -> option data))
  : list (statement data) :=
  Begin :: map Exec fs.

(** The same surroundings with the directory listed in another order. *)
Definition relisted {data} (listing : list string) (w : world data)
  : world data :=
  {| migrations_dir := Some listing;
     open_read := open_read w;
     now := now w |}.

(** A file of the directory is a candidate the run can apply: its
    version fits SQLite's INTEGER, the file can be read, and no statement
    of its body can fail or writes [schema_version]. *)
Definition applicable {data} (w : world data) (f : string) (v : Z) : Prop :=
  fits_int64 v = true /\
  exists text body,
    open_read w f = Contents text body /\ infallible body /\
    Forall keeps_ledger body.

(** The same surroundings with only the entries that sort before a
    name. *)
Definition sorts_before (name : string) (f : string) : bool :=
  String.ltb f name.

Definition before {data} (name : string) (w : world data) : world data :=
  {| migrations_dir := option_map (filter (sorts_before name)) (migrations_dir w);
     open_read := open_read w;
     now := now w |}.

(** A connection that shows no row of version [v], neither in the file
    nor in its open transaction. *)
Definition lacks {data} (v : Z) (c : connection data) : Prop :=
  ~ In v (versions (disk c)) /\ ~ In v (versions (visible c)).

(** ** The process

    [main] above starts where the command line is parsed and the
    database is open.  Before that the process can end in two more ways:
    [argparse] rejects the command line and exits with status 2, or
    [sqlite3.connect] or the first statement on the connection raises,
    outside every [try], and the interpreter exits with status 1 after
    printing a traceback.  The check of the migrations directory comes
    before the database is opened.  The read after the loop is outside
    every [try] as well; it runs on the connection the first read went
    through on, and the database is taken to stay readable during the
    run: another process locking the file, or a failing disk, is not
    covered. *)

(** What the process finds at the path given as [--db]: a database it
    can open and read (an empty file counts), or not. *)
Inductive database_file (data : Type) :=
| Opens (db : database data)
| Unusable.

Arguments Opens {data}.
Arguments Unusable {data}.

Record invocation (data : Type) := {
  arguments_parse : bool;
  surroundings : world data;
  database_path : database_file data
}.

Arguments arguments_parse {data}.
Arguments surroundings {data}.
Arguments database_path {data}.

Record process (data : Type) := {
  status : Z;
  output : list line;
  traceback : bool;
  file_after : database_file data
}.

Arguments status {data}.
Arguments output {data}.
Arguments traceback {data}.
Arguments file_after {data}.

Definition script {data} (i : invocation data) : process data :=
  if negb (arguments_parse i) then
    {| status := 2; output := []; traceback := false;
       file_after := database_path i |}
  else
    match migrations_dir (surroundings i), database_path i with
    | None, file =>
        {| status := 1; output := [DirectoryNotFound]; traceback := false;
           file_after := file |}
    | Some _, Unusable =>
        {| status := 1; output := []; traceback := true;
           file_after := Unusable |}
    | Some _, Opens db =>
        let m := main (surroundings i) db in
        {| status := exit_code m; output := stdout m; traceback := false;
           file_after := Opens (store m) |}
    end.


(** The name of a unit written by the convention: digits, an underscore,
    a description, and the extension. *)
Definition conventional (ordinal description : string) : string :=
  (ordinal ++ "_" ++ description ++ ".sql")%string.

(** ** Examples

    Concrete directories over a store whose data is the list of what the
    bodies wrote so far: one name per table created or row added. *)

Module Example.

Definition tables := list string.

(** [CREATE TABLE t (...)]: fails when the table exists. *)
Definition create_table (t : string) : statement tables :=
  Exec (fun d => if existsb (String.eqb t) d then None else Some (d ++ [t])).

(** [CREATE TABLE IF NOT EXISTS t (...)]: never fails. *)
Definition ensure_table (t : string) : statement tables :=
  Exec (fun d => Some (if existsb (String.eqb t) d then d else d ++ [t])).

(** A statement SQLite rejects. *)
Definition syntax_error : statement tables := Exec (fun _ => None).

Definition fresh : database tables :=
  {| user_data := []; schema_version := None |}.

Fixpoint read (files : list (string * list (statement tables)))
    (name : string) : read_result tables :=
  match files with
  | [] => FileNotFound
  | (n, body) :: rest =>
      if String.eqb n name then Contents "-- sql" body else read rest name
  end.

Definition directory (listing : list string)
    (files : list (string * list (statement tables))) : world tables :=
  {| migrations_dir := Some listing;
     open_read := read files;
     now := fun _ => "2024-01-01 00:00:00"%string |}.

Definition row (v : Z) (label : string) : VersionRecord :=
  {| version := v; applied_at := "2024-01-01 00:00:00";
     description := label; migration_type := "schema" |}.

(** Two units with the same ordinal, both with a valid body. *)
Definition twins : world tables :=
  directory ["0005_a.sql"; "0005_b.sql"]%string
    [("0005_a.sql", [create_table "a"]); ("0005_b.sql", [ensure_table "b"])]%string.

(** Units 1, 2, 3 where the body of unit 2 breaks at its second
    statement. *)
Definition broken_second : world tables :=
  directory ["0001_a.sql"; "0002_b.sql"; "0003_c.sql"]%string
    [("0001_a.sql", [create_table "a"]);
     ("0002_b.sql", [create_table "b"; syntax_error]);
     ("0003_c.sql", [create_table "c"])]%string.

(** Ordinals written without padding. *)
Definition unpadded : world tables :=
  directory ["9_a.sql"; "10_b.sql"]%string
    [("9_a.sql", [create_table "a"]); ("10_b.sql", [create_table "b"])]%string.

(** The same three units, whatever the listing order. *)
Definition padded (listing : list string) : world tables :=
  directory listing
    [("0001_a.sql", [create_table "a"]);
     ("0003_b.sql", [create_table "b"]);
     ("0004_c.sql", [create_table "c"])]%string.

Definition with_malformed (listing : list string) : world tables :=
  directory listing
    [("0001_init.sql", [create_table "init"]);
     ("notanumber_bad.sql", [create_table "bad"]);
     ("0002_add_index.sql", [create_table "idx"])]%string.

Definition negative_ordinal : world tables :=
  directory ["-1_x.sql"]%string [("-1_x.sql", [create_table "x"])]%string.

Definition zero_ordinal : world tables :=
  directory ["0000_init.sql"; "0001_a.sql"]%string
    [("0000_init.sql", [create_table "zero"]);
     ("0001_a.sql", [create_table "a"])]%string.

Definition empty_directory : world tables := directory [] [].

Definition no_directory : world tables :=
  {| migrations_dir := None; open_read := fun _ => FileNotFound;
     now := fun _ => "2024-01-01 00:00:00"%string |}.

(** A unit that is listed but whose file cannot be opened any more. *)
Definition vanished : world tables :=
  directory ["0001_a.sql"; "0002_gone.sql"; "0003_c.sql"]%string
    [("0001_a.sql", [create_table "a"]);
     ("0003_c.sql", [create_table "c"])]%string.

(** A unit whose ordinal does not fit SQLite's INTEGER. *)
Definition too_large : world tables :=
  directory ["9223372036854775808_big.sql"]%string
    [("9223372036854775808_big.sql", [ensure_table "big"])]%string.

(** A unit whose body opens its own transaction, creates a table and
    then breaks. *)
Definition add_table (t : string) (d : tables) : option tables :=
  Some (d ++ [t]).

Definition broken (d : tables) : option tables := None.

Definition guarded : world tables :=
  directory ["0001_a.sql"]%string
    [("0001_a.sql", own_transaction [add_table "a"; broken])]%string.

(** [DELETE FROM schema_version] and [DELETE FROM schema_version WHERE
    version = v]: statements of a body on the runner's own table. *)
Definition delete_ledger : statement tables :=
  Sql (fun d =>
         match schema_version d with
         | Some _ => Some {| user_data := user_data d; schema_version := Some [] |}
         | None => None
         end).

Definition delete_version (v : Z) : statement tables :=
  Sql (fun d =>
         match schema_version d with
         | Some rows =>
             Some {| user_data := user_data d;
                     schema_version :=
                       Some (filter (fun r => negb (version r =? v)) rows) |}
         | None => None
         end).

(** Two units, the second of which (in the order of the loop) empties
    the ledger. *)
Definition wiping : world tables :=
  directory ["9_a.sql"; "10_b.sql"]%string
    [("9_a.sql", [delete_ledger]); ("10_b.sql", [ensure_table "b"])]%string.

(** Two units with the same ordinal, the second of which takes the row
    of the first out of the ledger. *)
Definition resolving : world tables :=
  directory ["0005_a.sql"; "0005_b.sql"]%string
    [("0005_a.sql", [create_table "a"]);
     ("0005_b.sql", [delete_version 5])]%string.

(** Two units with the same ordinal, the first with a broken body. *)
Definition broken_twin : world tables :=
  directory ["0005_a.sql"; "0005_b.sql"]%string
    [("0005_a.sql", [syntax_error]); ("0005_b.sql", [ensure_table "b"])]%string.

(** Two units with the same ordinal and bodies that cannot fail. *)
Definition colliding : world tables :=
  directory ["0005_a.sql"; "0005_b.sql"]%string
    [("0005_a.sql", [ensure_table "a"]); ("0005_b.sql", [ensure_table "b"])]%string.

(** Two units with the same ordinal, the second with a broken body. *)
Definition failing_twin : world tables :=
  directory ["0005_a.sql"; "0005_b.sql"]%string
    [("0005_a.sql", [create_table "a"]); ("0005_b.sql", [syntax_error])]%string.

(** A malformed name behind a unit with a broken body. *)
Definition late_malformed : world tables :=
  directory ["0001_a.sql"; "notanumber_bad.sql"]%string
    [("0001_a.sql", [syntax_error]);
     ("notanumber_bad.sql", [ensure_table "bad"])]%string.

(** One unit whose body adds a row to a table of its own and then runs
    a statement that asks for two rows there: it fails the first time and
    goes through the second time, the first row having stayed. *)
Definition at_least_two (t : string) : statement tables :=
  Exec (fun d =>
          if Nat.leb 2 (List.length (filter (String.eqb t) d)) then Some d
          else None).

Definition second_try : world tables :=
  directory ["0001_a.sql"]%string
    [("0001_a.sql", [Exec (add_table "n"); at_least_two "n"])]%string.

(** A ledger made by hand, with one negative version. *)
Definition negative_ledger : database tables :=
  {| user_data := []; schema_version := Some [row (-100) "by hand"] |}.

(** Three units with bodies that cannot fail. *)
Definition sound : world tables :=
  directory ["0002_b.sql"; "0001_a.sql"; "0010_c.sql"]%string
    [("0001_a.sql", [ensure_table "a"]);
     ("0002_b.sql", [ensure_table "b"]);
     ("0010_c.sql", [ensure_table "c"])]%string.

End Example.

(** * Properties *)

(** ** The order of names *)

Section NameOrder.

Lemma ascii_compare_refl (a : ascii) : Ascii.compare a a = Eq.
Proof. unfold Ascii.compare. apply N.compare_refl. Qed.

Lemma string_compare_refl (s : string) : String.compare s s = Eq.
Proof.
  induction s as [|a s IH]; simpl; [reflexivity|].
  now rewrite ascii_compare_refl.
Qed.

Lemma leb_refl (s : string) : String.leb s s = true.
Proof. unfold String.leb. now rewrite string_compare_refl. Qed.

Lemma string_compare_lt_trans (s1 s2 s3 : string) :
  String.compare s1 s2 = Lt -> String.compare s2 s3 = Lt ->
  String.compare s1 s3 = Lt.
Proof.
  revert s2 s3.
  induction s1 as [|a s1 IH]; intros [|b s2] [|c s3]; simpl;
    try discriminate; try reflexivity.
  unfold Ascii.compare.
  destruct (N.compare_spec (N_of_ascii a) (N_of_ascii b)) as [E1|L1|G1];
    destruct (N.compare_spec (N_of_ascii b) (N_of_ascii c)) as [E2|L2|G2];
    try discriminate; intros H1 H2.
  - rewrite E1, E2, N.compare_refl. eauto.
  - rewrite E1. now apply N.compare_lt_iff in L2 as ->.
  - rewrite <- E2. now apply N.compare_lt_iff in L1 as ->.
  - assert (L : (N_of_ascii a < N_of_ascii c)%N) by lia.
    now apply N.compare_lt_iff in L as ->.
Qed.

Lemma leb_trans (s1 s2 s3 : string) :
  String.leb s1 s2 = true -> String.leb s2 s3 = true ->
  String.leb s1 s3 = true.
Proof.
  unfold String.leb.
  destruct (String.compare s1 s2) eqn:E12; try discriminate;
    destruct (String.compare s2 s3) eqn:E23; try discriminate; intros _ _.
  - apply String.compare_eq_iff in E12, E23. subst.
    now rewrite string_compare_refl.
  - apply String.compare_eq_iff in E12. subst. now rewrite E23.
  - apply String.compare_eq_iff in E23. subst. now rewrite E12.
  - now rewrite (string_compare_lt_trans _ _ _ E12 E23).
Qed.

Lemma leb_false_flip (s1 s2 : string) :
  String.leb s1 s2 = false -> String.leb s2 s1 = true.
Proof.
  intros H. destruct (String.leb_total s1 s2) as [T|T]; congruence.
Qed.

End NameOrder.

(** ** [sorted] *)

Section Sorting.

Lemma insert_sorted_In (x y : string) (l : list string) :
  In y (insert_sorted x l) <-> y = x \/ In y l.
Proof.
  induction l as [|z l IH]; simpl.
  - intuition.
  - destruct (String.leb x z); simpl; rewrite ?IH; intuition.
Qed.

Lemma sorted_In (y : string) (l : list string) :
  In y (sorted l) <-> In y l.
Proof.
  induction l as [|x l IH]; simpl; [tauto|].
  rewrite insert_sorted_In, IH. intuition.
Qed.

Lemma insert_sorted_ordered (x : string) (l : list string) :
  StronglySorted le_name l -> StronglySorted le_name (insert_sorted x l).
Proof.
  induction 1 as [|z l S IH F]; simpl.
  - repeat constructor.
  - destruct (String.leb x z) eqn:E.
    + constructor; [now constructor|].
      constructor; [exact E|].
      eapply Forall_impl; [|exact F].
      intros a Ha. exact (leb_trans _ _ _ E Ha).
    + constructor; [exact IH|].
      apply Forall_forall. intros a Ha.
      apply insert_sorted_In in Ha as [->|Ha].
      * now apply leb_false_flip.
      * rewrite Forall_forall in F. now apply F.
Qed.

Lemma sorted_ordered (l : list string) : StronglySorted le_name (sorted l).
Proof.
  induction l as [|x l IH]; simpl; [constructor|].
  now apply insert_sorted_ordered.
Qed.

(** Two insertions commute: the order is total. *)
Lemma insert_sorted_comm (x y : string) (l : list string) :
  insert_sorted x (insert_sorted y l) = insert_sorted y (insert_sorted x l).
Proof.
  induction l as [|z l IH]; simpl.
  - destruct (String.leb x y) eqn:Exy, (String.leb y x) eqn:Eyx;
      try reflexivity.
    + now rewrite (String.leb_antisym _ _ Exy Eyx).
    + apply leb_false_flip in Exy. congruence.
  - destruct (String.leb y z) eqn:Eyz, (String.leb x z) eqn:Exz; simpl;
      rewrite ?Eyz, ?Exz.
    + destruct (String.leb x y) eqn:Exy, (String.leb y x) eqn:Eyx;
        try reflexivity.
      * now rewrite (String.leb_antisym _ _ Exy Eyx).
      * apply leb_false_flip in Exy. congruence.
    + destruct (String.leb x y) eqn:Exy; [|reflexivity].
      rewrite (leb_trans _ _ _ Exy Eyz) in Exz. discriminate.
    + destruct (String.leb y x) eqn:Eyx; [|reflexivity].
      rewrite (leb_trans _ _ _ Eyx Exz) in Eyz. discriminate.
    + now rewrite IH.
Qed.

(** The result does not depend on the order in which the file system
    lists the entries. *)
Lemma sorted_permutation (l l' : list string) :
  Permutation l l' -> sorted l = sorted l'.
Proof.
  induction 1 as [|x l l' _ IH|x y l|l l' l'' _ IH1 _ IH2]; simpl.
  - reflexivity.
  - now rewrite IH.
  - apply insert_sorted_comm.
  - congruence.
Qed.

Lemma glob_sql_permutation (l l' : list string) :
  Permutation l l' -> Permutation (glob_sql l) (glob_sql l').
Proof.
  unfold glob_sql.
  induction 1 as [|x l l' _ IH|x y l|l l' l'' _ IH1 _ IH2]; simpl.
  - constructor.
  - destruct (Name.is_sql x); [now constructor|exact IH].
  - destruct (Name.is_sql x), (Name.is_sql y);
      try apply Permutation_refl. apply perm_swap.
  - now transitivity (filter Name.is_sql l').
Qed.

(** Dropping entries before or after sorting is the same. *)
Lemma filter_insert_sorted (p : string -> bool) (x : string) (l : list string) :
  StronglySorted le_name l ->
  filter p (insert_sorted x l) =
  if p x then insert_sorted x (filter p l) else filter p l.
Proof.
  induction 1 as [|z l S IH F]; simpl.
  - now destruct (p x).
  - destruct (String.leb x z) eqn:E; simpl.
    + destruct (p x) eqn:Px, (p z) eqn:Pz; simpl; rewrite ?E; try reflexivity.
      clear IH. induction l as [|u l IHl]; simpl; [reflexivity|].
      inversion F as [|? ? Fu Fl]; subst. inversion S; subst.
      destruct (p u); simpl.
      * now rewrite (leb_trans _ _ _ E Fu).
      * now apply IHl.
    + rewrite IH. destruct (p x), (p z); simpl; rewrite ?E; reflexivity.
Qed.

Lemma filter_sorted (p : string -> bool) (l : list string) :
  filter p (sorted l) = sorted (filter p l).
Proof.
  induction l as [|x l IH]; simpl; [reflexivity|].
  rewrite filter_insert_sorted by apply sorted_ordered.
  rewrite IH. now destruct (p x).
Qed.

End Sorting.

(** ** Ordinals of one width *)

Section Ordinals.

Local Open Scope string_scope.

Lemma split_first_prefix (s : string) :
  exists t, s = Name.split_first s ++ t.
Proof.
  induction s as [|c s [t IH]]; simpl.
  - now exists "".
  - destruct (Ascii.eqb c "_").
    + now exists (String c s).
    + exists t. simpl. now rewrite <- IH.
Qed.

Lemma substring_prefix (n : nat) (s : string) :
  exists t, s = substring 0 n s ++ t.
Proof.
  revert s. induction n as [|n IH]; intros [|c s]; simpl.
  - now exists "".
  - now exists (String c s).
  - now exists "".
  - destruct (IH s) as [t Ht]. exists t. now rewrite <- Ht.
Qed.

Lemma stem_prefix (name : string) : exists t, name = Name.stem name ++ t.
Proof.
  unfold Name.stem.
  assert (R : exists t, name = name ++ t).
  { exists "". induction name as [|c s IH]; simpl; congruence. }
  destruct (Name.rfind_dot name) as [i|]; [|exact R].
  destruct (_ && _)%bool; [apply substring_prefix|exact R].
Qed.

Lemma append_assoc (a b c : string) : (a ++ b) ++ c = a ++ (b ++ c).
Proof. induction a as [|x a IH]; simpl; congruence. Qed.

Lemma ordinal_prefix (name : string) :
  exists t, name = Name.split_first (Name.stem name) ++ t.
Proof.
  destruct (stem_prefix name) as [t1 H1].
  destruct (split_first_prefix (Name.stem name)) as [t2 H2].
  exists (t2 ++ t1). rewrite <- append_assoc, <- H2. exact H1.
Qed.

(** Two names compare as their prefixes of one length do, unless these
    are equal. *)
Lemma compare_append (a b x y : string) :
  String.length a = String.length b ->
  String.compare (a ++ x) (b ++ y) =
  match String.compare a b with
  | Eq => String.compare x y
  | c => c
  end.
Proof.
  revert b. induction a as [|c a IH]; intros [|d b] L; simpl in *;
    try discriminate; [reflexivity|].
  destruct (Ascii.compare c d); try reflexivity.
  apply IH. congruence.
Qed.

Lemma digit_range (c : ascii) :
  Name.is_digit c = true -> 0 <= Name.digit_value c <= 9.
Proof. unfold Name.is_digit, Name.digit_value. lia. Qed.

Lemma ascii_compare_code (c d : ascii) :
  match Ascii.compare c d with
  | Lt => Name.code c < Name.code d
  | Eq => c = d
  | Gt => Name.code d < Name.code c
  end.
Proof.
  destruct (Ascii.compare c d) eqn:E.
  - now apply Ascii.compare_eq_iff.
  - unfold Ascii.compare in E. rewrite N.compare_lt_iff in E.
    unfold Name.code. lia.
  - unfold Ascii.compare in E. rewrite N.compare_gt_iff in E.
    unfold Name.code. lia.
Qed.

(** On digit strings of one length, the value grows with the
    accumulator first and with the lexicographic order next. *)
Lemma digits_monotone (a : string) :
  forall b acc1 acc2 va vb,
    String.length a = String.length b ->
    Name.digits acc1 a = Some va ->
    Name.digits acc2 b = Some vb ->
    (acc1 < acc2 -> va < vb) /\
    (acc1 = acc2 -> String.compare a b = Lt -> va < vb) /\
    (acc1 = acc2 -> String.compare a b = Eq -> va = vb).
Proof.
  induction a as [|c a IH]; intros [|d b] acc1 acc2 va vb L Ha Hb;
    cbn [Name.digits String.compare String.length] in *; try discriminate.
  - injection Ha as <-. injection Hb as <-. repeat split; auto; discriminate.
  - destruct (Name.is_digit c) eqn:Dc; [|discriminate].
    destruct (Name.is_digit d) eqn:Dd; [|discriminate].
    apply digit_range in Dc. apply digit_range in Dd.
    assert (L' : String.length a = String.length b) by congruence.
    destruct (IH b _ _ va vb L' Ha Hb) as (I1 & I2 & I3).
    pose proof (ascii_compare_code c d) as Hcd.
    unfold Name.digit_value in *.
    repeat split.
    + intros Hlt. apply I1. lia.
    + intros -> Hcmp. destruct (Ascii.compare c d); try discriminate.
      * subst d. now apply I2.
      * apply I1. lia.
    + intros -> Hcmp. destruct (Ascii.compare c d); try discriminate.
      subst d. now apply I3.
Qed.

Lemma all_digits_lstrip (s : string) :
  all_digits s = true -> Name.lstrip s = s.
Proof.
  destruct s as [|c s]; simpl; [reflexivity|].
  unfold all_digits. simpl. intros H. apply andb_true_iff in H as [D _].
  unfold Name.is_digit in D. unfold Name.is_space.
  destruct (_ || _)%bool eqn:E; [|reflexivity]. lia.
Qed.

Lemma all_digits_rstrip (s : string) :
  all_digits s = true -> Name.rstrip s = s.
Proof.
  unfold all_digits.
  induction s as [|c s IH]; simpl; [reflexivity|].
  intros H. apply andb_true_iff in H as [D H]. rewrite (IH H).
  destruct s; [|reflexivity].
  unfold Name.is_digit in D. unfold Name.is_space.
  destruct (_ || _)%bool eqn:E; [|reflexivity]. lia.
Qed.

(** On a run of digits [int] is the decimal value. *)
Lemma py_int_digits (s : string) (v : Z) :
  all_digits s = true -> Name.py_int s = Some v -> Name.digits 0 s = Some v.
Proof.
  intros D. unfold Name.py_int.
  rewrite (all_digits_lstrip _ D), (all_digits_rstrip _ D).
  destruct s as [|c s]; [discriminate|].
  unfold all_digits in D. simpl in D. apply andb_true_iff in D as [Dc _].
  assert (P : c <> "+"%char /\ c <> "-"%char).
  { split; intros ->; discriminate. }
  destruct P as [P M].
  destruct c as [[] [] [] [] [] [] [] []]; try discriminate Dc;
    try (exfalso; apply P; reflexivity); try (exfalso; apply M; reflexivity);
    auto.
Qed.

(** With ordinals of one width, the order of the names is the order of
    the versions. *)
Lemma fixed_width_order (width : nat) (n1 n2 : string) (v1 v2 : Z) :
  fixed_width width n1 -> fixed_width width n2 ->
  Name.parse_version n1 = Some v1 -> Name.parse_version n2 = Some v2 ->
  le_name n1 n2 -> v1 <= v2.
Proof.
  unfold fixed_width, Name.parse_version, le_name.
  intros (L1 & D1) (L2 & D2) P1 P2 Hle.
  apply (py_int_digits _ _ D1) in P1. apply (py_int_digits _ _ D2) in P2.
  destruct (ordinal_prefix n1) as [t1 E1], (ordinal_prefix n2) as [t2 E2].
  set (o1 := Name.split_first (Name.stem n1)) in *.
  set (o2 := Name.split_first (Name.stem n2)) in *.
  assert (L : String.length o1 = String.length o2) by congruence.
  destruct (digits_monotone o1 o2 0 0 v1 v2 L P1 P2) as (_ & I2 & I3).
  unfold String.leb in Hle. rewrite E1, E2, (compare_append _ _ _ _ L) in Hle.
  destruct (String.compare o1 o2) eqn:C.
  - rewrite (I3 eq_refl eq_refl). lia.
  - specialize (I2 eq_refl eq_refl). lia.
  - discriminate.
Qed.

Lemma parsed_In (files : list string) (v : Z) :
  In v (parsed files) <->
  exists f, In f files /\ Name.parse_version f = Some v.
Proof.
  induction files as [|f files IH]; simpl.
  - split; [tauto|]. now intros (f & [] & _).
  - destruct (Name.parse_version f) as [u|] eqn:P; simpl; rewrite ?IH.
    + split.
      * intros [->|(g & G & Pg)]; [exists f|exists g]; auto.
      * intros (g & [->|G] & Pg); [left; congruence|right; exists g; auto].
    + split.
      * intros (g & G & Pg). exists g; auto.
      * intros (g & [->|G] & Pg); [congruence|exists g; auto].
Qed.

Lemma parsed_ascending (width : nat) (files : list string) :
  StronglySorted le_name files ->
  (forall f v, In f files -> Name.parse_version f = Some v ->
               fixed_width width f) ->
  StronglySorted Z.le (parsed files).
Proof.
  induction 1 as [|f files S IH F]; intros W; simpl; [constructor|].
  assert (IH' : StronglySorted Z.le (parsed files)).
  { apply IH. intros g v G. apply W. now right. }
  destruct (Name.parse_version f) as [v|] eqn:P; [|exact IH'].
  constructor; [exact IH'|].
  apply Forall_forall. intros u Hu.
  apply parsed_In in Hu as (g & G & Pg).
  rewrite Forall_forall in F.
  apply (fixed_width_order width f g); auto.
  - apply (W f v); simpl; auto.
  - apply (W g u); simpl; auto.
Qed.

Lemma ascending_strict (l : list Z) :
  StronglySorted Z.le l -> NoDup l -> StronglySorted Z.lt l.
Proof.
  induction 1 as [|x l S IH F]; intros N; [constructor|].
  inversion N as [|? ? Nx Nl]; subst.
  constructor; [now apply IH|].
  rewrite Forall_forall in *. intros y Hy.
  specialize (F y Hy). assert (x <> y) by (intros ->; contradiction). lia.
Qed.

End Ordinals.
(** ** The connection *)

Section Connection.

Context {data : Type}.
Implicit Types (c : connection data) (s : statement data).

Lemma same_ledger_idle c :
  idle c -> same_ledger (schema_version (disk c)) c.
Proof. unfold idle, same_ledger, visible. now intros ->. Qed.

Lemma commit_ledger rows c : same_ledger rows c -> same_ledger rows (commit c).
Proof. unfold same_ledger, commit, visible. simpl. tauto. Qed.

Lemma rollback_ledger rows c :
  same_ledger rows c -> same_ledger rows (rollback c).
Proof. unfold same_ledger, rollback, visible. simpl. tauto. Qed.

(** A statement that keeps the ledger leaves it in the file and in the
    open transaction. *)
Lemma exec_statement_ledger rows c s c' :
  keeps_ledger s ->
  exec_statement c s = Some c' -> same_ledger rows c -> same_ledger rows c'.
Proof.
  unfold exec_statement, same_ledger, visible.
  destruct s as [| | |f|f], (txn c) as [t|] eqn:T; simpl; intros K;
    try discriminate.
  - intros [= <-]. simpl. tauto.
  - intros [= <-]. simpl. tauto.
  - intros [= <-]. simpl. tauto.
  - destruct (f (user_data t)); [|discriminate]. intros [= <-]. simpl. tauto.
  - destruct (f (user_data (disk c))); [|discriminate].
    intros [= <-]. simpl. tauto.
  - destruct (f t) as [t'|] eqn:F; [|discriminate].
    destruct (storable t'); [|discriminate].
    intros [= <-]. simpl. rewrite (K _ _ F). tauto.
  - destruct (f (disk c)) as [d'|] eqn:F; [|discriminate].
    destruct (storable d'); [|discriminate].
    intros [= <-]. simpl. rewrite (K _ _ F). tauto.
Qed.

Lemma run_statements_ledger rows sql :
  Forall keeps_ledger sql ->
  forall c, same_ledger rows c ->
            same_ledger rows (fst (run_statements c sql)).
Proof.
  induction 1 as [|s sql K _ IH]; intros c H; simpl; [exact H|].
  destruct (exec_statement c s) as [c'|] eqn:E; [|exact H].
  apply IH. eapply exec_statement_ledger; eauto.
Qed.

Lemma executescript_ledger rows c sql :
  Forall keeps_ledger sql ->
  same_ledger rows c -> same_ledger rows (fst (executescript c sql)).
Proof.
  intros K H. unfold executescript.
  now apply run_statements_ledger, commit_ledger.
Qed.

Lemma has_version_In v rows :
  has_version v rows = true <-> In v (map version rows).
Proof.
  unfold has_version. rewrite existsb_exists, in_map_iff.
  split; intros (r & A & B); exists r.
  - apply Z.eqb_eq in B. tauto.
  - split; [tauto|]. apply Z.eqb_eq. tauto.
Qed.

Lemma idle_rollback c : idle (rollback c).
Proof. reflexivity. Qed.

Lemma idle_commit c : idle (commit c).
Proof. reflexivity. Qed.

(** The table holds no key outside 64 bits, whatever a statement
    writes. *)
Lemma storable_fits (d : database data) (v : Z) :
  storable d = true -> In v (versions d) -> fits_int64 v = true.
Proof.
  unfold storable, versions.
  destruct (schema_version d) as [rows|]; [|intros _ []].
  intros S H. apply andb_true_iff in S as [S _].
  rewrite forallb_forall in S.
  apply in_map_iff in H as (r & <- & Hr). now apply S.
Qed.

Lemma exec_statement_lacks v c s c' :
  fits_int64 v = false ->
  exec_statement c s = Some c' -> lacks v c -> lacks v c'.
Proof.
  intros Fit. unfold exec_statement, lacks, visible.
  destruct s as [| | |f|f], (txn c) as [t|] eqn:T; simpl; try discriminate.
  - intros [= <-]. simpl. tauto.
  - intros [= <-]. simpl. tauto.
  - intros [= <-]. simpl. tauto.
  - destruct (f (user_data t)); [|discriminate]. intros [= <-]. simpl. tauto.
  - destruct (f (user_data (disk c))); [|discriminate].
    intros [= <-]. simpl. tauto.
  - destruct (f t) as [t'|]; [|discriminate].
    destruct (storable t') eqn:S; [|discriminate].
    intros [= <-]. simpl. intros [D _]. split; [exact D|].
    intros H. apply (storable_fits _ _ S) in H. congruence.
  - destruct (f (disk c)) as [d'|]; [|discriminate].
    destruct (storable d') eqn:S; [|discriminate].
    intros [= <-]. simpl. intros _.
    assert (N : ~ In v (versions d')).
    { intros H. apply (storable_fits _ _ S) in H. congruence. }
    tauto.
Qed.

Lemma run_statements_lacks v sql :
  fits_int64 v = false ->
  forall c, lacks v c -> lacks v (fst (run_statements c sql)).
Proof.
  intros Fit. induction sql as [|s sql IH]; intros c H; simpl; [exact H|].
  destruct (exec_statement c s) as [c'|] eqn:E; [|exact H].
  apply IH. eapply exec_statement_lacks; eauto.
Qed.

Lemma commit_lacks v c : lacks v c -> lacks v (commit c).
Proof. unfold lacks, commit, visible. simpl. tauto. Qed.

Lemma rollback_lacks v c : lacks v c -> lacks v (rollback c).
Proof. unfold lacks, rollback, visible. simpl. tauto. Qed.

End Connection.

(** ** The ledger *)

Section Ledger.

Context {data : Type}.
Implicit Types (c : connection data) (db : database data).

Lemma fold_max_spec (l : list Z) :
  forall a, In (fold_left Z.max l a) (a :: l) /\
            Forall (fun x => x <= fold_left Z.max l a) (a :: l).
Proof.
  induction l as [|x l IH]; intros a; simpl.
  - split; [now left|]. repeat constructor. lia.
  - destruct (IH (Z.max a x)) as [I F]. split.
    + destruct I as [I|I]; [|now right; right].
      rewrite <- I. destruct (Z.max_spec a x) as [[_ ->]|[_ ->]]; auto.
    + inversion F as [|? ? F1 F2]; subst.
      constructor; [lia|]. constructor; [lia|exact F2].
Qed.

Lemma sql_max_empty (rows : list VersionRecord) :
  sql_max rows = None <-> rows = [].
Proof. destruct rows; simpl; split; congruence. Qed.

Lemma sql_max_spec (rows : list VersionRecord) (v : Z) :
  sql_max rows = Some v ->
  In v (map version rows) /\ Forall (fun r => version r <= v) rows.
Proof.
  destruct rows as [|r rows]; simpl; [discriminate|]. intros [= <-].
  destruct (fold_max_spec (map version rows) (version r)) as [I F].
  split; [exact I|].
  inversion F as [|? ? F1 F2]; subst. constructor; [exact F1|].
  rewrite Forall_forall in *. intros x Hx. apply F2.
  now apply in_map.
Qed.

Lemma versions_create db :
  versions (create_if_not_exists db) = versions db.
Proof.
  unfold create_if_not_exists, versions.
  destruct (schema_version db) eqn:E; simpl; now rewrite ?E.
Qed.

Lemma user_data_create db :
  user_data (create_if_not_exists db) = user_data db.
Proof.
  unfold create_if_not_exists. now destruct (schema_version db).
Qed.

Lemma create_if_not_exists_table db :
  exists rows, schema_version (create_if_not_exists db) = Some rows /\
               map version rows = versions db.
Proof.
  unfold create_if_not_exists, versions.
  destruct (schema_version db) as [rows|] eqn:E.
  - exists rows. now rewrite E.
  - now exists [].
Qed.

Lemma create_if_not_exists_done db rows :
  schema_version db = Some rows -> create_if_not_exists db = db.
Proof. unfold create_if_not_exists. now intros ->. Qed.

Lemma create_if_not_exists_again db :
  create_if_not_exists (create_if_not_exists db) = create_if_not_exists db.
Proof.
  destruct (create_if_not_exists_table db) as (rows & T & _).
  exact (create_if_not_exists_done _ _ T).
Qed.

(** What [main] gets from its first call. *)
Lemma get_current_version_connect db :
  get_current_version (connect db) =
  (connect (create_if_not_exists db), current_version db).
Proof. reflexivity. Qed.

(** And from its last. *)
Lemma get_current_version_idle c :
  idle c ->
  get_current_version c =
  (connect (create_if_not_exists (disk c)), current_version (disk c)).
Proof.
  unfold idle. destruct c as [d t]. simpl. now intros ->.
Qed.

Lemma current_version_upper db (v : Z) :
  In v (versions db) -> v <= current_version db.
Proof.
  unfold current_version, get_current_version, versions. simpl.
  unfold visible. simpl. unfold create_if_not_exists.
  destruct (schema_version db) as [rows|] eqn:E; simpl; [|tauto].
  rewrite E. intros H.
  destruct (sql_max rows) as [m|] eqn:M.
  - apply sql_max_spec in M as [_ F]. rewrite Forall_forall in F.
    apply in_map_iff in H as (r & <- & R). now apply F.
  - apply sql_max_empty in M. subst. destruct H.
Qed.

Lemma current_version_cases db :
  (versions db = [] /\ current_version db = 0) \/
  In (current_version db) (versions db).
Proof.
  unfold current_version, get_current_version, versions. simpl.
  unfold visible. simpl. unfold create_if_not_exists.
  destruct (schema_version db) as [rows|] eqn:E; simpl; [|now left].
  rewrite E.
  destruct (sql_max rows) as [m|] eqn:M.
  - right. now apply sql_max_spec in M.
  - apply sql_max_empty in M. subst. now left.
Qed.

Lemma current_version_same db db' :
  versions db = versions db' -> current_version db = current_version db'.
Proof.
  intros H.
  destruct (current_version_cases db) as [[E Z]|I],
           (current_version_cases db') as [[E' Z']|I'].
  - congruence.
  - rewrite <- H, E in I'. destruct I'.
  - rewrite H, E' in I. destruct I.
  - apply Z.le_antisymm; apply current_version_upper; congruence.
Qed.

Lemma current_version_create db :
  current_version (create_if_not_exists db) = current_version db.
Proof. apply current_version_same, versions_create. Qed.

End Ledger.

(** ** One application *)

Section Apply.

Context {data : Type} (w : world data).
Implicit Types (c : connection data).

Lemma database_error_lines v name text :
  Forall (fun l => from_apply l = true) (database_error v name text) /\
  attempted (database_error v name text) = [] /\
  succeeded (database_error v name text) = [] /\
  warnings (database_error v name text) = [] /\
  existsb (diagnostic_of v) (database_error v name text) = true.
Proof.
  unfold database_error.
  destruct (String.eqb text EmptyString); simpl; rewrite Z.eqb_refl;
    repeat split; repeat constructor.
Qed.

Lemma integrity_error_lines v name text :
  Forall (fun l => from_apply l = true) (integrity_error v name text) /\
  attempted (integrity_error v name text) = [] /\
  succeeded (integrity_error v name text) = [] /\
  warnings (integrity_error v name text) = [] /\
  existsb (diagnostic_of v) (integrity_error v name text) = true.
Proof.
  unfold integrity_error.
  destruct (String.eqb text EmptyString); simpl; rewrite Z.eqb_refl;
    repeat split; repeat constructor.
Qed.

(** When the insert goes through: the table is there, the version fits
    and is new, and the row is added in the transaction. *)
Lemma insert_version_done c (r : VersionRecord) c3 :
  insert_version c r = inr c3 ->
  exists rows,
    schema_version (visible c) = Some rows /\
    fits_int64 (version r) = true /\
    has_version (version r) rows = false /\
    c3 = {| disk := disk c;
            txn := Some {| user_data := user_data (visible c);
                           schema_version := Some (rows ++ [r]) |} |}.
Proof.
  unfold insert_version.
  destruct (schema_version (visible c)) as [rows|]; [|discriminate].
  destruct (fits_int64 (version r)); simpl; [|discriminate].
  destruct (has_version (version r) rows) eqn:H; [discriminate|].
  intros [= <-]. exists rows. repeat split; assumption.
Qed.

Local Opaque database_error integrity_error.

(** Each of the six parts of the statement below closes in one of these
    ways; the facts [AP] and [AP2] are set up in its proof. *)
Local Ltac part AP AP2 :=
  first [ reflexivity | assumption
        | solve [repeat constructor; assumption]
        | solve [intros; first [reflexivity | assumption]]
        | solve [repeat split; first [reflexivity | assumption]]
        | solve [let u := fresh in let g := fresh in let H := fresh in
                 intros u g H;
                 first [ eapply AP2; [| |exact H]; reflexivity
                       | eapply AP; [| |exact H]; assumption ]]
        | idtac ].

(** What one call writes, whatever the connection and the body. *)
Lemma apply_migration_lines c f v :
  forall ok c' out, apply_migration w c f v = (ok, c', out) ->
    attempted out = [v] /\
    warnings out = [] /\
    Forall (fun l => from_apply l = true) out /\
    (forall u g, In (Applying u g) out -> u = v /\ g = f) /\
    (idle c -> idle c') /\
    if ok
    then out = [Applying v f; AppliedSuccessfully v] /\ fits_int64 v = true
    else succeeded out = [] /\ existsb (diagnostic_of v) out = true.
Proof.
  intros ok c' out. unfold apply_migration.
  assert (AP : forall tl u g,
             Forall (fun l => from_apply l = true) tl -> attempted tl = [] ->
             Applying v f = Applying u g \/ In (Applying u g) tl ->
             u = v /\ g = f).
  { intros tl u g F A [[= -> ->]|H]; [auto|].
    exfalso. induction tl as [|l tl IH]; [destruct H|].
    inversion F; subst. destruct H as [->|H]; [discriminate|].
    destruct l; try discriminate; auto. }
  assert (AP2 : forall l u g,
             from_apply l = true -> attempted [l] = [] ->
             Applying v f = Applying u g \/ l = Applying u g \/ False ->
             u = v /\ g = f).
  { intros l u g F A. apply (AP [l]); [now constructor|exact A]. }
  destruct (open_read w f) as [text sql| |].
  - destruct (database_error_lines v f text) as (D1 & D2 & D3 & D4 & D5).
    destruct (integrity_error_lines v f text) as (E1 & E2 & E3 & E4 & E5).
    destruct (exec_statement c Begin) as [c1|].
    + destruct (executescript c1 sql) as [c2 [|]].
      * destruct (insert_version c2 (record_of w f v)) as [[| | |]|c3] eqn:Ins;
          intros [= <- <- <-].
        -- refine (conj _ (conj _ (conj _ (conj _ (conj _ _))))); simpl;
             rewrite ?D2, ?D3, ?D4, ?D5; part AP AP2.
        -- refine (conj _ (conj _ (conj _ (conj _ (conj _ _))))); simpl;
             rewrite ?E2, ?E3, ?E4, ?E5; part AP AP2.
        -- refine (conj _ (conj _ (conj _ (conj _ (conj _ _))))); simpl;
             rewrite ?Z.eqb_refl; part AP AP2.
        -- refine (conj _ (conj _ (conj _ (conj _ (conj _ _))))); simpl;
             rewrite ?Z.eqb_refl; part AP AP2.
        -- apply insert_version_done in Ins as (rows & _ & Fit & _).
           simpl in Fit.
           refine (conj _ (conj _ (conj _ (conj _ (conj _ _))))); simpl;
             part AP AP2.
      * intros [= <- <- <-].
        refine (conj _ (conj _ (conj _ (conj _ (conj _ _))))); simpl;
          rewrite ?D2, ?D3, ?D4, ?D5; part AP AP2.
    + intros [= <- <- <-].
      refine (conj _ (conj _ (conj _ (conj _ (conj _ _))))); simpl;
        rewrite ?D2, ?D3, ?D4, ?D5; part AP AP2.
  - intros [= <- <- <-].
    refine (conj _ (conj _ (conj _ (conj _ (conj _ _))))); simpl;
      rewrite ?Z.eqb_refl; part AP AP2.
  - intros [= <- <- <-].
    refine (conj _ (conj _ (conj _ (conj _ (conj _ _))))); simpl;
      rewrite ?Z.eqb_refl; part AP AP2.
Qed.

(** What one call leaves behind, on a connection without open
    transaction whose ledger exists, when the body keeps the ledger. *)
Lemma apply_migration_spec c f v rows :
  body_keeps_ledger w f ->
  idle c -> schema_version (disk c) = Some rows ->
  forall ok c' out, apply_migration w c f v = (ok, c', out) ->
    idle c' /\
    if ok
    then schema_version (disk c') = Some (rows ++ [record_of w f v]) /\
         has_version v rows = false
    else schema_version (disk c') = Some rows.
Proof.
  intros Safe I L ok c' out. unfold apply_migration.
  destruct (open_read w f) as [text sql| |] eqn:R.
  - unfold idle in I. unfold exec_statement. rewrite I.
    set (c1 := {| disk := disk c; txn := Some (disk c) |}).
    assert (S1 : same_ledger (Some rows) c1) by (split; exact L).
    pose proof (executescript_ledger _ c1 sql (Safe _ _ R) S1) as S2.
    destruct (executescript c1 sql) as [c2 b]. simpl in S2.
    destruct S2 as [S2d S2v].
    destruct b.
    + destruct (insert_version c2 (record_of w f v)) as [[| | |]|c3] eqn:Ins;
        intros [= <- <- <-]; try (split; [reflexivity|exact S2d]).
      apply insert_version_done in Ins as (rows' & Lv & _ & H & ->).
      assert (rows' = rows) as -> by congruence.
      split; [reflexivity|]. split; [reflexivity|exact H].
    + intros [= <- <- <-]. split; [reflexivity|exact S2d].
  - intros [= <- <- <-]. split; [exact I|exact L].
  - intros [= <- <- <-]. split; [reflexivity|exact L].
Qed.

Local Transparent database_error integrity_error.

(** A successful call writes two lines. *)
Lemma apply_migration_success c f v c' out :
  apply_migration w c f v = (true, c', out) ->
  out = [Applying v f; AppliedSuccessfully v].
Proof.
  intros A. now destruct (apply_migration_lines c f v _ _ _ A)
    as (_ & _ & _ & _ & _ & -> & _).
Qed.

(** A version outside 64 bits that the connection does not show does not
    come in through an application. *)
Lemma apply_migration_lacks c f v u :
  fits_int64 u = false -> lacks u c ->
  lacks u (snd (fst (apply_migration w c f v))).
Proof.
  intros Fit Lk. unfold apply_migration.
  destruct (open_read w f) as [text sql| |];
    [|exact Lk|now apply rollback_lacks].
  destruct (exec_statement c Begin) as [c1|] eqn:B;
    [|now apply rollback_lacks].
  pose proof (exec_statement_lacks u _ _ _ Fit B Lk) as L1.
  pose proof (run_statements_lacks u sql Fit _ (commit_lacks u _ L1)) as L2.
  unfold executescript.
  destruct (run_statements (commit c1) sql) as [c2 [|]]; cbn [fst snd] in *;
    [|now apply rollback_lacks].
  destruct (insert_version c2 (record_of w f v)) as [[| | |]|c3] eqn:Ins;
    cbn [fst snd]; try now apply rollback_lacks.
  apply insert_version_done in Ins as (rows & Lv & Fv & _ & ->).
  simpl in Fv. destruct L2 as [_ L2]. unfold versions in L2.
  rewrite Lv in L2.
  assert (N : ~ In u (map version (rows ++ [record_of w f v]))).
  { rewrite map_app, in_app_iff. simpl. intros [H|[H|[]]]; [contradiction|].
    congruence. }
  unfold lacks, commit, visible, versions. simpl. tauto.
Qed.

End Apply.

(** ** The loop *)

Section Loop.

Context {data : Type} (w : world data).
Implicit Types (c : connection data) (files : list string).

Lemma attempted_app (a b : list line) :
  attempted (a ++ b) = attempted a ++ attempted b.
Proof.
  induction a as [|l a IH]; simpl; [reflexivity|].
  destruct l; simpl; congruence.
Qed.

Lemma succeeded_app (a b : list line) :
  succeeded (a ++ b) = succeeded a ++ succeeded b.
Proof.
  induction a as [|l a IH]; simpl; [reflexivity|].
  destruct l; simpl; congruence.
Qed.

Lemma warnings_app (a b : list line) :
  warnings (a ++ b) = warnings a ++ warnings b.
Proof.
  induction a as [|l a IH]; simpl; [reflexivity|].
  destruct l; simpl; congruence.
Qed.

Lemma warnings_In (name : string) (out : list line) :
  In name (warnings out) <-> In (SkippingInvalid name) out.
Proof.
  induction out as [|l out IH]; simpl; [tauto|].
  destruct l; simpl; rewrite IH; split;
    try (intros [H|H]; [discriminate|exact H]); try tauto.
  - intros [->|H]; auto.
  - intros [[= ->]|H]; auto.
Qed.

Lemma attempted_In (v : Z) (out : list line) :
  In v (attempted out) <-> exists f, In (Applying v f) out.
Proof.
  induction out as [|l out IH]; simpl.
  - split; [tauto|]. now intros [f []].
  - destruct l; simpl; rewrite IH; split;
      try (intros [f H]; exists f; now right);
      try (intros [f [H|H]]; [discriminate|now exists f]).
    + intros [->|[f H]]; [exists name; now left|exists f; now right].
    + intros [f [[= -> ->]|H]]; [now left|right; now exists f].
Qed.

Lemma from_apply_no_stop (out : list line) (v : Z) :
  Forall (fun l => from_apply l = true) out -> ~ In (StoppedAt v) out.
Proof.
  rewrite Forall_forall. intros F H. now apply F in H.
Qed.

Lemma from_apply_from_loop (out : list line) :
  Forall (fun l => from_apply l = true) out ->
  Forall (fun l => from_loop l = true) out.
Proof.
  apply Forall_impl. intros l H. destruct l; try discriminate; reflexivity.
Qed.

Variable current : Z.

(** One turn of the loop: the three ways a file is dealt with. *)
Ltac turn f c v P G A c' out :=
  cbn [migrate_loop];
  destruct (Name.parse_version f) as [v|] eqn:P;
  [ destruct (v >? current) eqn:G;
    [ destruct (apply_migration w c f v) as [[[|] c'] out] eqn:A | ] | ].

(** The loop over a list in two pieces. *)
Lemma migrate_loop_app files1 files2 :
  forall c n,
    migrate_loop w current (files1 ++ files2) c n =
    let r1 := migrate_loop w current files1 c n in
    match ending r1 with
    | Failed _ => r1
    | Completed =>
        let r2 := migrate_loop w current files2 (conn_after r1)
                    (applied_count r1) in
        {| ending := ending r2; conn_after := conn_after r2;
           applied_count := applied_count r2;
           printed := printed r1 ++ printed r2 |}
    end.
Proof.
  induction files1 as [|f files1 IH]; intros c n.
  - simpl. now destruct (migrate_loop w current files2 c n).
  - rewrite <- app_comm_cons. turn f c v P G A c' out; cbn zeta.
    + rewrite IH. cbn zeta.
      destruct (migrate_loop w current files1 c' (S n)) as [[|u] ? ? ?];
        cbn [ending conn_after applied_count printed];
        [now rewrite app_assoc|reflexivity].
    + reflexivity.
    + apply IH.
    + rewrite IH. cbn zeta.
      destruct (migrate_loop w current files1 c n) as [[|u] ? ? ?];
        cbn [ending conn_after applied_count printed]; reflexivity.
Qed.

(** The loop leaves no transaction open. *)
Lemma migrate_loop_idle files :
  forall c n, idle c -> idle (conn_after (migrate_loop w current files c n)).
Proof.
  induction files as [|f files IH]; intros c n I; [exact I|].
  turn f c v P G A c' out; cbn [conn_after]; auto.
  - apply IH. now apply (apply_migration_lines w c f v _ _ _ A).
  - now apply (apply_migration_lines w c f v _ _ _ A).
Qed.

(** The counter counts the applications that went through, and each of
    them was of a version that fits SQLite's INTEGER. *)
Lemma migrate_loop_count files :
  forall c n,
    let r := migrate_loop w current files c n in
    applied_count r = (n + List.length (succeeded (printed r)))%nat /\
    Forall (fun v => fits_int64 v = true) (succeeded (printed r)).
Proof.
  induction files as [|f files IH]; intros c n.
  - simpl. split; [lia|constructor].
  - cbv zeta. turn f c v P G A c' out; cbn [applied_count printed].
    + destruct (apply_migration_lines w c f v _ _ _ A)
        as (_ & _ & _ & _ & _ & -> & Fit).
      destruct (IH c' (S n)) as [C F]. rewrite C. simpl.
      split; [lia|now constructor].
    + destruct (apply_migration_lines w c f v _ _ _ A)
        as (_ & _ & _ & _ & _ & Sx & _).
      rewrite succeeded_app, Sx. simpl. split; [lia|constructor].
    + apply IH.
    + apply IH.
Qed.

(** Where the lines of the loop come from. *)
Lemma migrate_loop_lines files :
  forall c n,
    let r := migrate_loop w current files c n in
    Forall (fun l => from_loop l = true) (printed r) /\
    (forall u g, In (Applying u g) (printed r) ->
                 In g files /\ Name.parse_version g = Some u /\ current < u) /\
    (forall g, In (SkippingInvalid g) (printed r) ->
               In g files /\ Name.parse_version g = None) /\
    (forall v, In (StoppedAt v) (printed r) <-> ending r = Failed v).
Proof.
  induction files as [|f files IH]; intros c n.
  - simpl. repeat split; try constructor; try tauto; discriminate.
  - cbv zeta. turn f c v P G A c' out.
    + destruct (apply_migration_lines w c f v _ _ _ A)
        as (_ & _ & Fa & Ap & _).
      destruct (IH c' (S n)) as (F & HA & HS & HE).
      cbn [ending printed].
      pose proof (from_apply_from_loop _ Fa) as Fl.
      rewrite Forall_forall in Fa.
      split; [apply Forall_app; auto|]. split; [|split].
      * intros u g Hin. apply in_app_or in Hin as [Hin|Hin].
        -- apply Ap in Hin as [-> ->]. simpl. split; [auto|]. split; [auto|lia].
        -- apply HA in Hin as (Hin & Pg & Gu). simpl. auto.
      * intros g Hin. apply in_app_or in Hin as [Hin|Hin].
        -- now apply Fa in Hin.
        -- apply HS in Hin as (Hin & Pg). simpl. auto.
      * intros u. rewrite <- HE, in_app_iff. split; [|tauto].
        intros [Hin|Hin]; [now apply Fa in Hin|exact Hin].
    + destruct (apply_migration_lines w c f v _ _ _ A)
        as (_ & _ & Fa & Ap & _).
      cbn [ending printed].
      pose proof (from_apply_from_loop _ Fa) as Fl.
      rewrite Forall_forall in Fa.
      split; [apply Forall_app; split; [exact Fl|now repeat constructor]|].
      split; [|split].
      * intros u g Hin. apply in_app_or in Hin as [Hin|[Hin|[]]];
          [|discriminate].
        apply Ap in Hin as [-> ->]. simpl. split; [auto|]. split; [auto|lia].
      * intros g Hin. apply in_app_or in Hin as [Hin|[Hin|[]]];
          [|discriminate].
        now apply Fa in Hin.
      * intros u. rewrite in_app_iff. simpl. split.
        -- intros [Hin|[[= ->]|[]]]; [now apply Fa in Hin|reflexivity].
        -- intros [= ->]. auto.
    + destruct (IH c n) as (F & HA & HS & HE).
      split; [exact F|]. split; [|split; [|exact HE]].
      * intros u g Hin. apply HA in Hin as (Hin & Pg & Gu). simpl. auto.
      * intros g Hin. apply HS in Hin as (Hin & Pg). simpl. auto.
    + destruct (IH c n) as (F & HA & HS & HE).
      cbn [ending printed].
      split; [now constructor|]. split; [|split; [|]].
      * intros u g [Hin|Hin]; [discriminate|].
        apply HA in Hin as (Hin & Pg & Gu). simpl. auto.
      * intros g [[= <-]|Hin]; [simpl; auto|].
        apply HS in Hin as (Hin & Pg). simpl. auto.
      * intros u. rewrite <- HE. simpl. split; [|tauto].
        intros [Hin|Hin]; [discriminate|exact Hin].
Qed.

(** The order of the work: the candidates are taken as the files come,
    each after all those before it went through, and the first failure
    ends the loop. *)
Lemma migrate_loop_order files :
  forall c n,
    let r := migrate_loop w current files c n in
    exists rest,
      filter (fun v => v >? current) (parsed files) =
      attempted (printed r) ++ rest /\
      match ending r with
      | Completed =>
          rest = [] /\
          attempted (printed r) = succeeded (printed r) /\
          warnings (printed r) = filter unparsable files /\
          existsb from_failure (printed r) = false
      | Failed v =>
          attempted (printed r) = succeeded (printed r) ++ [v] /\
          existsb (diagnostic_of v) (printed r) = true /\
          exists before, printed r = before ++ [StoppedAt v]
      end.
Proof.
  induction files as [|f files IH]; intros c n.
  - simpl. exists []. auto.
  - cbv zeta.
    assert (U : unparsable f =
                match Name.parse_version f with Some _ => false | None => true end)
      by reflexivity.
    turn f c v P G A c' out;
      cbn [parsed]; rewrite ?P; cbn [filter]; rewrite ?G, U.
    + destruct (apply_migration_lines w c f v _ _ _ A)
        as (At & Wa & Fa & _ & _ & Eo & _).
      assert (Sx : succeeded out = [v]) by now rewrite Eo.
      destruct (IH c' (S n)) as (rest & E & M).
      cbn [ending printed]. exists rest.
      rewrite attempted_app, succeeded_app, warnings_app, At, Sx, Wa.
      cbn [app]. split; [now rewrite E|].
      destruct (ending (migrate_loop w current files c' (S n))).
      * destruct M as (-> & M1 & M2 & M3). rewrite M1.
        repeat split; auto.
        rewrite existsb_app, M3, orb_false_r.
        now rewrite Eo.
      * destruct M as (M1 & M2 & before & M3). rewrite M1.
        split; [reflexivity|]. split.
        -- rewrite existsb_app, M2. apply orb_true_r.
        -- exists (out ++ before). now rewrite M3, app_assoc.
    + destruct (apply_migration_lines w c f v _ _ _ A)
        as (At & Wa & Fa & _ & _ & Sx & Dg).
      cbn [ending printed].
      exists (filter (fun v => v >? current) (parsed files)).
      rewrite attempted_app, succeeded_app, At, Sx. cbn [app attempted].
      split; [reflexivity|]. split; [reflexivity|]. split.
      * rewrite existsb_app, Dg. reflexivity.
      * now exists out.
    + destruct (IH c n) as (rest & E & M). exists rest.
      split; [exact E|exact M].
    + destruct (IH c n) as (rest & E & M). exists rest.
      cbn [ending printed attempted succeeded warnings].
      split; [exact E|].
      destruct (ending (migrate_loop w current files c n)).
      * destruct M as (-> & M1 & M2 & M3). rewrite M2. repeat split; auto.
      * destruct M as (M1 & M2 & before & M3).
        split; [exact M1|]. split; [exact M2|].
        exists (SkippingInvalid f :: before). now rewrite M3.
Qed.

(** A version outside 64 bits that the connection does not show is not
    in the ledger after the loop. *)
Lemma migrate_loop_lacks files u :
  fits_int64 u = false ->
  forall c n, lacks u c -> lacks u (conn_after (migrate_loop w current files c n)).
Proof.
  intros Fit. induction files as [|f files IH]; intros c n Lk; [exact Lk|].
  pose proof (apply_migration_lacks w c f) as AL.
  turn f c v P G A c' out; cbn [conn_after]; auto.
  - apply IH. specialize (AL v u Fit Lk). now rewrite A in AL.
  - specialize (AL v u Fit Lk). now rewrite A in AL.
Qed.

(** What the loop does to the store when the bodies of its candidates
    do not write the ledger: it appends one row per applied file and
    leaves the rows that were there. *)
Lemma migrate_loop_store files :
  (forall f v, In f files -> Name.parse_version f = Some v -> current < v ->
               body_keeps_ledger w f) ->
  forall c n rows,
    idle c -> schema_version (disk c) = Some rows ->
    let r := migrate_loop w current files c n in
    idle (conn_after r) /\
    exists new,
      schema_version (disk (conn_after r)) = Some (rows ++ new) /\
      map version new = succeeded (printed r) /\
      applied_count r = (n + List.length new)%nat /\
      NoDup (map version new) /\
      Forall (fun rec =>
                current < version rec /\
                fits_int64 (version rec) = true /\
                ~ In (version rec) (map version rows) /\
                exists f, In f files /\
                          Name.parse_version f = Some (version rec) /\
                          rec = record_of w f (version rec)) new.
Proof.
  induction files as [|f files IH]; intros Safe c n rows I L.
  - simpl. split; [exact I|]. exists []. rewrite app_nil_r.
    repeat split; auto; constructor.
  - assert (Safe' : forall g u, In g files -> Name.parse_version g = Some u ->
                                current < u -> body_keeps_ledger w g).
    { intros g u Hg. apply Safe. now right. }
    specialize (IH Safe').
    assert (Kf : forall u, Name.parse_version f = Some u -> (u >? current) = true ->
                           body_keeps_ledger w f).
    { intros u Pu Gu. apply (Safe f u); [now left|exact Pu|].
      apply Z.gtb_gt in Gu. lia. }
    cbv zeta. turn f c v P G A c' out.
    + destruct (apply_migration_spec w c f v rows (Kf v eq_refl G) I L
                  _ _ _ A)
        as (I' & L' & H).
      destruct (apply_migration_lines w c f v _ _ _ A)
        as (_ & _ & _ & _ & _ & Eo & Fit).
      assert (Sx : succeeded out = [v]) by now rewrite Eo.
      destruct (IH c' (S n) _ I' L') as (I'' & new & L'' & M & C & N & F).
      cbn [conn_after printed applied_count]. split; [exact I''|].
      exists (record_of w f v :: new).
      rewrite succeeded_app, Sx. cbn [map List.length app version record_of].
      rewrite <- app_assoc in L''. cbn [app] in L''.
      split; [exact L''|]. split; [now rewrite M|]. split; [lia|].
      rewrite Forall_forall in F.
      split.
      * constructor; [|exact N]. intros Hin.
        apply in_map_iff in Hin as (rec & Ev & Hin).
        destruct (F rec Hin) as (_ & _ & Nin & _). apply Nin.
        rewrite map_app, in_app_iff. right. simpl. left. congruence.
      * constructor.
        -- cbn [version record_of]. split; [lia|]. split; [exact Fit|].
           split.
           ++ intros Hin. apply has_version_In in Hin. congruence.
           ++ exists f. simpl. auto.
        -- apply Forall_forall. intros rec Hin.
           destruct (F rec Hin) as (Gt & Fi & Nin & g & Hg & Pg & Eg).
           split; [exact Gt|]. split; [exact Fi|]. split.
           ++ intros Hr. apply Nin. rewrite map_app, in_app_iff. now left.
           ++ exists g. simpl. auto.
    + destruct (apply_migration_spec w c f v rows (Kf v eq_refl G) I L
                  _ _ _ A)
        as (I' & L').
      destruct (apply_migration_lines w c f v _ _ _ A)
        as (_ & _ & _ & _ & _ & Sx & _).
      cbn [conn_after printed applied_count]. split; [exact I'|].
      exists []. rewrite app_nil_r, succeeded_app, Sx. simpl.
      repeat split; auto; constructor.
    + destruct (IH c n rows I L) as (I'' & new & L'' & M & C & N & F).
      split; [exact I''|]. exists new. repeat split; auto.
      eapply Forall_impl; [|exact F]. simpl.
      intros rec (Gt & Fi & Nin & g & Hg & Pg & Eg).
      repeat split; auto. exists g. auto.
    + destruct (IH c n rows I L) as (I'' & new & L'' & M & C & N & F).
      cbn [conn_after printed applied_count succeeded].
      split; [exact I''|]. exists new. repeat split; auto.
      eapply Forall_impl; [|exact F]. simpl.
      intros rec (Gt & Fi & Nin & g & Hg & Pg & Eg).
      repeat split; auto. exists g. auto.
Qed.

End Loop.

(** ** [main] in terms of its loop *)

Section Main.

Context {data : Type} (w : world data).
Implicit Types (db : database data).

Lemma main_missing_directory db :
  migrations_dir w = None ->
  main w db = {| exit_code := 1; store := db;
                 stdout := [DirectoryNotFound]; applied := 0 |}.
Proof. unfold main. now intros ->. Qed.

Lemma loop_of_start db :
  idle (connect (create_if_not_exists db)) /\
  exists rows,
    schema_version (disk (connect (create_if_not_exists db))) = Some rows /\
    map version rows = versions db.
Proof. split; [reflexivity|]. apply create_if_not_exists_table. Qed.

(** The loop of [main] leaves no transaction open. *)
Lemma loop_of_idle db entries : idle (conn_after (loop_of w db entries)).
Proof. apply migrate_loop_idle. reflexivity. Qed.

(** After a loop that went through the ledger is read once more, which
    creates the table again if a body dropped it. *)
Lemma main_of_loop db entries :
  migrations_dir w = Some entries ->
  let r := loop_of w db entries in
  let m := main w db in
  exit_code m = match ending r with Completed => 0 | Failed _ => 1 end /\
  store m = match ending r with
            | Completed => create_if_not_exists (disk (conn_after r))
            | Failed _ => disk (conn_after r)
            end /\
  applied m = applied_count r /\
  stdout m =
    CurrentVersion (current_version db) ::
    match sorted (glob_sql entries), ending r with
    | [], _ => [NoMigrationFiles]
    | _, Failed _ => printed r
    | _, Completed => printed r ++ summary r
    end.
Proof.
  intros D. pose proof (loop_of_idle db entries) as I'. revert I'.
  unfold loop_of, main. rewrite D, get_current_version_connect.
  destruct (sorted (glob_sql entries)) as [|f files] eqn:E.
  - simpl. now rewrite create_if_not_exists_again.
  - set (r := migrate_loop w (current_version db) (f :: files) _ 0) in *.
    intros I'. cbv zeta.
    destruct (ending r) eqn:En.
    + rewrite (get_current_version_idle _ I'). simpl. auto.
    + simpl. auto.
Qed.

Lemma main_observed db entries :
  migrations_dir w = Some entries ->
  let r := loop_of w db entries in
  attempted (stdout (main w db)) = attempted (printed r) /\
  succeeded (stdout (main w db)) = succeeded (printed r) /\
  warnings (stdout (main w db)) = warnings (printed r) /\
  (forall l, from_loop l = true ->
             (In l (stdout (main w db)) <-> In l (printed r))).
Proof.
  intros D. cbv zeta.
  destruct (main_of_loop db entries D) as (_ & _ & _ & ->).
  unfold loop_of.
  destruct (sorted (glob_sql entries)) as [|f files] eqn:E.
  - simpl. refine (conj eq_refl (conj eq_refl (conj eq_refl _))).
    intros l Hl. split; [|tauto].
    intros [H|[H|[]]]; subst l; discriminate.
  - set (r := migrate_loop w (current_version db) (f :: files) _ 0) in *.
    destruct (ending r).
    + cbn [attempted succeeded warnings].
      rewrite attempted_app, succeeded_app, warnings_app.
      unfold summary.
      destruct (Nat.ltb 0 (applied_count r)); simpl; rewrite !app_nil_r;
        (refine (conj eq_refl (conj eq_refl (conj eq_refl _)));
         intros l Hl; rewrite in_app_iff; simpl;
         split; [|tauto];
         intros [H|[H|[H|[H|[]]]]]; subst; try discriminate; auto).
    + simpl. refine (conj eq_refl (conj eq_refl (conj eq_refl _))).
      intros l Hl. split; [|tauto].
      intros [H|H]; [subst l; discriminate|exact H].
Qed.

(** The exit status tells whether the loop went through. *)
Lemma main_exit_code db entries :
  migrations_dir w = Some entries ->
  (exit_code (main w db) = 0 <-> ending (loop_of w db entries) = Completed) /\
  (exit_code (main w db) = 0 \/ exit_code (main w db) = 1).
Proof.
  intros D. destruct (main_of_loop db entries D) as (-> & _).
  destruct (ending (loop_of w db entries)); split; auto;
    split; intros; (reflexivity || discriminate).
Qed.

(** When the bodies of the candidates do not write the ledger, the store
    of a run is what the loop left, and its ledger is that of the
    database plus one row for each application that went through. *)
Lemma main_store db entries :
  (forall f v, In f (sorted (glob_sql entries)) ->
               Name.parse_version f = Some v -> current_version db < v ->
               body_keeps_ledger w f) ->
  migrations_dir w = Some entries ->
  let r := loop_of w db entries in
  let m := main w db in
  store m = disk (conn_after r) /\
  exists rows new,
    schema_version (create_if_not_exists db) = Some rows /\
    map version rows = versions db /\
    schema_version (store m) = Some (rows ++ new) /\
    map version new = succeeded (stdout m) /\
    applied m = List.length new /\
    NoDup (map version new) /\
    Forall (fun rec =>
              current_version db < version rec /\
              fits_int64 (version rec) = true /\
              ~ In (version rec) (versions db) /\
              exists f, In f (sorted (glob_sql entries)) /\
                        Name.parse_version f = Some (version rec) /\
                        rec = record_of w f (version rec)) new.
Proof.
  intros Safe D. cbv zeta.
  destruct (main_of_loop db entries D) as (_ & St & Ap & _).
  destruct (main_observed db entries D) as (_ & Su & _).
  destruct (loop_of_start db) as (I & rows & L & V).
  destruct (migrate_loop_store w (current_version db)
              (sorted (glob_sql entries)) Safe _ 0%nat rows I L)
    as (I' & new & L' & M & C & N & F).
  fold (loop_of w db entries) in *.
  assert (E : store (main w db) = disk (conn_after (loop_of w db entries))).
  { rewrite St. destruct (ending (loop_of w db entries)); [|reflexivity].
    now apply create_if_not_exists_done with (rows := rows ++ new). }
  split; [exact E|]. exists rows, new.
  rewrite E, Su, Ap, C, <- V. repeat split; auto.
Qed.

End Main.

(** * The claims *)

(** ** Version Ledger *)

(** C8: [get_current_version] returns the maximum version recorded in the
    ledger, and 0 whenever the ledger is empty (or was not there yet); the
    call leaves the recorded versions as they were. *)
Theorem get_current_version_maximum {data : Type} (c : connection data) :
  let rows := ledger_rows c in
  let v := snd (get_current_version c) in
  ((rows = [] /\ v = 0) \/
   (In v (map version rows) /\ Forall (fun r => version r <= v) rows)) /\
  ledger_rows (fst (get_current_version c)) = rows.
Proof.
  cbv zeta. unfold get_current_version, ledger_rows, visible.
  destruct (txn c) as [t|]; cbn [fst snd txn disk];
    unfold create_if_not_exists.
  - destruct (schema_version t) as [rows|] eqn:E; cbn [schema_version];
      rewrite ?E; [|auto].
    split; [|reflexivity].
    destruct (sql_max rows) as [m|] eqn:M.
    + right. now apply sql_max_spec.
    + left. now apply sql_max_empty in M.
  - destruct (schema_version (disk c)) as [rows|] eqn:E; cbn [schema_version];
      rewrite ?E; [|auto].
    split; [|reflexivity].
    destruct (sql_max rows) as [m|] eqn:M.
    + right. now apply sql_max_spec.
    + left. now apply sql_max_empty in M.
Qed.

(** ** Migration Executor *)

(** C1, the behaviour of the code where the claim fails.  Two units carry
    the ordinal 5 and both bodies are valid.  The second insert into the
    ledger fails on the primary key, and the table created by the second
    body stays in the file: [executescript] committed before running the
    body, so that [rollback] has nothing of it left to undo. *)
Theorem apply_migration_leaves_body_effects :
  let m := main Example.twins Example.fresh in
  exit_code m = 1 /\
  In (FailedDatabase 5 IntegrityError) (stdout m) /\
  versions (store m) = [5] /\
  map description (ledger_rows (connect (store m))) = ["0005_a"%string] /\
  user_data (store m) = ["a"; "b"]%string /\
  let c := connect {| user_data := ["a"%string];
                      schema_version := Some [Example.row 5 "0005_a"] |} in
  let '(ok, c', _) := apply_migration Example.twins c "0005_b.sql" 5 in
  ok = false /\
  txn c' = None /\
  schema_version (disk c') = schema_version (disk c) /\
  user_data (disk c') = ["a"; "b"]%string.
Proof. vm_compute. repeat split; auto 20. Qed.

(** ** Runner *)

(** C3, the behaviour of the code where the claim fails.  Of the units 1,
    2, 3 the body of unit 2 breaks at its second statement.  The run stops
    at version 2 without trying unit 3, version 1 is recorded, versions 2
    and 3 are not; but the table created by the first statement of unit 2
    is in the file. *)
Theorem fail_fast_keeps_partial_body :
  let m := main Example.broken_second Example.fresh in
  exit_code m = 1 /\
  attempted (stdout m) = [1; 2] /\
  succeeded (stdout m) = [1] /\
  In (StoppedAt 2) (stdout m) /\
  versions (store m) = [1] /\
  user_data (store m) = ["a"; "b"]%string.
Proof. vm_compute. repeat split; auto 20. Qed.

Lemma not_self_snoc {A : Type} (l : list A) (x : A) : l <> l ++ [x].
Proof.
  intros H. apply (f_equal (@List.length A)) in H.
  rewrite List.length_app in H. simpl in H. lia.
Qed.

(** The loop of [main] at its start, with the three accounts of it that
    hold whatever the bodies do. *)
Lemma loop_of_facts {data : Type} (w : world data) (db : database data)
    (entries : list string) :
  let r := loop_of w db entries in
  let files := sorted (glob_sql entries) in
  let current := current_version db in
  (idle (conn_after r) /\
   applied_count r = List.length (succeeded (printed r)) /\
   Forall (fun v => fits_int64 v = true) (succeeded (printed r))) /\
  (Forall (fun l => from_loop l = true) (printed r) /\
   (forall u g, In (Applying u g) (printed r) ->
                In g files /\ Name.parse_version g = Some u /\ current < u) /\
   (forall g, In (SkippingInvalid g) (printed r) ->
              In g files /\ Name.parse_version g = None) /\
   (forall v, In (StoppedAt v) (printed r) <-> ending r = Failed v)) /\
  (exists rest,
     candidates current entries = attempted (printed r) ++ rest /\
     match ending r with
     | Completed =>
         rest = [] /\
         attempted (printed r) = succeeded (printed r) /\
         warnings (printed r) = filter unparsable files /\
         existsb from_failure (printed r) = false
     | Failed v =>
         attempted (printed r) = succeeded (printed r) ++ [v] /\
         existsb (diagnostic_of v) (printed r) = true /\
         exists before, printed r = before ++ [StoppedAt v]
     end).
Proof.
  cbv zeta. split; [|split].
  - split; [apply loop_of_idle|].
    exact (migrate_loop_count w (current_version db) _ _ 0%nat).
  - exact (migrate_loop_lines w (current_version db) _ _ 0%nat).
  - exact (migrate_loop_order w (current_version db) _ _ 0%nat).
Qed.

(** The exit status of [main]: 0 or 1; 1 exactly when the migrations
    directory is missing or an application failed (the last one started,
    after which the loop stopped), and 0 exactly when the directory exists
    and every application that was started went through, which includes
    the runs with nothing to apply. *)
Lemma main_exit_code_cases {data : Type} (w : world data)
    (db : database data) :
  let m := main w db in
  (exit_code m = 0 \/ exit_code m = 1) /\
  (exit_code m = 1 <->
   migrations_dir w = None \/
   exists v, attempted (stdout m) = succeeded (stdout m) ++ [v] /\
             In (StoppedAt v) (stdout m)) /\
  (exit_code m = 0 <->
   migrations_dir w <> None /\ attempted (stdout m) = succeeded (stdout m)) /\
  (migrations_dir w = Some [] ->
   exit_code m = 0 /\ applied m = 0%nat /\
   candidates (current_version db) [] = [] /\ attempted (stdout m) = []).
Proof.
  cbv zeta. destruct (migrations_dir w) as [entries|] eqn:D.
  - destruct (main_of_loop w db entries D) as (Ex & _ & Ap & _).
    destruct (main_observed w db entries D) as (At & Su & _ & Ln).
    destruct (loop_of_facts w db entries)
      as (_ & (_ & _ & _ & St) & rest & _ & En).
    rewrite Ex, At, Su.
    destruct (ending (loop_of w db entries)) as [|v] eqn:E.
    + destruct En as (_ & AS & _). rewrite AS.
      split; [now left|]. split; [|split].
      * split; [discriminate|].
        intros [H|(v & H & _)]; [discriminate|]. now apply not_self_snoc in H.
      * split; [|reflexivity]. intros _. split; [discriminate|reflexivity].
      * intros [= ->]. rewrite Ap. unfold loop_of in *. simpl in *. auto.
    + destruct En as (AS & _). rewrite AS.
      split; [now right|]. split; [|split].
      * split; [|reflexivity]. intros _. right. exists v.
        split; [reflexivity|]. apply Ln; [reflexivity|]. now apply St.
      * split; [discriminate|]. intros [_ H]. symmetry in H.
        now apply not_self_snoc in H.
      * intros [= ->]. unfold loop_of in E. simpl in E. discriminate.
  - rewrite (main_missing_directory w db D). simpl.
    split; [now right|]. split; [|split].
    + split; auto.
    + split; [discriminate|]. now intros [H _].
    + discriminate.
Qed.







(** ** Migration Discovery *)

Lemma filter_ascending (p : Z -> bool) (l : list Z) :
  StronglySorted Z.le l -> StronglySorted Z.le (filter p l).
Proof.
  induction 1 as [|x l S IH F]; simpl; [constructor|].
  destruct (p x); [|exact IH].
  constructor; [exact IH|].
  rewrite Forall_forall in *. intros y Hy.
  apply filter_In in Hy as [Hy _]. now apply F.
Qed.

Lemma prefix_ascending (l1 l2 : list Z) :
  StronglySorted Z.le (l1 ++ l2) -> StronglySorted Z.le l1.
Proof.
  induction l1 as [|x l1 IH]; simpl; intros H; [constructor|].
  inversion H as [|? ? Hs Hf]; subst. constructor; [now apply IH|].
  apply Forall_app in Hf. tauto.
Qed.

Lemma discovered_permutation (entries listing : list string) :
  Permutation entries listing -> discovered listing = discovered entries.
Proof.
  intros P. unfold discovered.
  now rewrite (sorted_permutation _ _ (glob_sql_permutation _ _ P)).
Qed.

(** C2, as stated, fails when ordinals are written without padding:
    [sorted] orders the paths as strings, so that [10_b.sql] comes before
    [9_a.sql], and both are applied in that order. *)
Lemma unpadded_ordinals_out_of_order :
  let m := main Example.unpadded Example.fresh in
  discovered ["9_a.sql"; "10_b.sql"]%string = [10; 9] /\
  attempted (stdout m) = [10; 9] /\
  succeeded (stdout m) = [10; 9] /\
  ~ ascending (discovered ["9_a.sql"; "10_b.sql"]%string) /\
  ~ ascending (attempted (stdout m)).
Proof.
  cbv zeta.
  assert (N : ~ ascending [10; 9]).
  { intros H. inversion H as [|? ? _ F]; subst.
    inversion F as [|? ? L _]; subst. lia. }
  repeat split; try reflexivity; exact N.
Qed.

(** C2, amended: in every directory of ASCII names discovery yields the
    same sequence whatever order the file system lists the directory in,
    the units that parse in the order of their file names, and the
    candidates are taken in the order of that sequence, none before all
    the candidates ahead of it went through.  When moreover the ordinals
    of the units that parse are all written with the same number of
    digits (the NNNN_description.sql convention), that sequence is
    ascending by version, strictly so when no two units share a version,
    and so is the sequence of the applications the run starts. *)
Theorem discovery_order {data : Type} (w : world data) (db : database data)
    (entries listing : list string) :
  migrations_dir w = Some listing ->
  Permutation entries listing ->
  ascii_names entries ->
  let m := main w db in
  discovered listing = discovered entries /\
  (exists rest,
     candidates (current_version db) listing = attempted (stdout m) ++ rest) /\
  (attempted (stdout m) = succeeded (stdout m) \/
   exists v, attempted (stdout m) = succeeded (stdout m) ++ [v]) /\
  (forall width : nat,
     (forall f v, In f entries -> Name.is_sql f = true ->
                  Name.parse_version f = Some v -> fixed_width width f) ->
     StronglySorted Z.le (discovered listing) /\
     (NoDup (discovered listing) -> ascending (discovered listing)) /\
     StronglySorted Z.le (candidates (current_version db) listing) /\
     StronglySorted Z.le (attempted (stdout m)) /\
     (NoDup (discovered listing) -> ascending (attempted (stdout m)))).
Proof.
  intros D P _. cbv zeta.
  destruct (main_observed w db listing D) as (At & Su & _ & _).
  destruct (loop_of_facts w db listing) as (_ & _ & rest & C & En).
  rewrite At, Su.
  split; [now apply discovered_permutation|].
  split; [now exists rest|].
  split.
  { destruct (ending (loop_of w db listing)) as [|v].
    - left. tauto.
    - right. exists v. tauto. }
  intros width W.
  assert (Sd : StronglySorted Z.le (discovered listing)).
  { unfold discovered. apply (parsed_ascending width).
    - apply sorted_ordered.
    - intros f v Hf Pf. apply (proj1 (sorted_In _ _)) in Hf.
      unfold glob_sql in Hf. apply filter_In in Hf as [Hf Sq].
      apply (W f v); auto.
      apply (Permutation_in _ (Permutation_sym P) Hf). }
  assert (Sc : StronglySorted Z.le (candidates (current_version db) listing))
    by now apply filter_ascending.
  assert (Sa : StronglySorted Z.le
                 (attempted (printed (loop_of w db listing)))).
  { rewrite C in Sc. now apply prefix_ascending in Sc. }
  split; [exact Sd|].
  split; [intros N; now apply ascending_strict|].
  split; [exact Sc|]. split; [exact Sa|].
  intros N. apply ascending_strict; [exact Sa|].
  assert (Nc : NoDup (candidates (current_version db) listing))
    by now apply NoDup_filter.
  rewrite C in Nc. now apply NoDup_app_remove_r in Nc.
Qed.

(** [discovery_order] on units 1, 3, 4 listed as 3, 1, 4. *)
Lemma discovery_order_witness :
  let entries := ["0001_a.sql"; "0003_b.sql"; "0004_c.sql"]%string in
  let listing := ["0003_b.sql"; "0001_a.sql"; "0004_c.sql"]%string in
  Permutation entries listing /\
  ascii_names entries /\
  discovered listing = [1; 3; 4] /\
  ascending (discovered listing) /\
  attempted (stdout (main (Example.padded listing) Example.fresh)) = [1; 3; 4] /\
  ascending (attempted (stdout (main (Example.padded listing) Example.fresh))).
Proof.
  cbv zeta.
  assert (P : Permutation ["0001_a.sql"; "0003_b.sql"; "0004_c.sql"]%string
                          ["0003_b.sql"; "0001_a.sql"; "0004_c.sql"]%string)
    by apply perm_swap.
  assert (A : ascii_names ["0001_a.sql"; "0003_b.sql"; "0004_c.sql"]%string)
    by (repeat constructor).
  assert (W : forall f v,
             In f ["0001_a.sql"; "0003_b.sql"; "0004_c.sql"]%string ->
             Name.is_sql f = true -> Name.parse_version f = Some v ->
             fixed_width 4 f).
  { intros f v [<-|[<-|[<-|[]]]] _ _; split; reflexivity. }
  assert (N : NoDup (discovered ["0003_b.sql"; "0001_a.sql"; "0004_c.sql"]%string)).
  { repeat constructor; simpl; intuition discriminate. }
  destruct (discovery_order
              (Example.padded ["0003_b.sql"; "0001_a.sql"; "0004_c.sql"]%string)
              Example.fresh _ _ eq_refl P A) as (E & _ & _ & S).
  destruct (S 4%nat W) as (_ & Sd & _ & _ & Sa).
  split; [exact P|]. split; [exact A|]. split; [reflexivity|].
  split; [exact (Sd N)|]. split; [reflexivity|exact (Sa N)].
Defined.

(** ** Reruns *)

(** A directory none of whose bodies has a statement on the ledger. *)
Lemma directory_ledger_safe (listing : list string)
    (files : list (string * list (statement Example.tables))) :
  Forall (fun p => Forall keeps_ledger (snd p)) files ->
  ledger_safe (Example.directory listing files).
Proof.
  intros F f text body. simpl. induction F as [|[n b] files Hb _ IH]; simpl.
  - discriminate.
  - destruct (String.eqb n f); [|exact IH].
    intros [= _ <-]. exact Hb.
Qed.

Section Rerun.

Context {data : Type} (w : world data).
Implicit Types (db : database data) (c : connection data).

Lemma attempted_skipping (names : list string) :
  attempted (map SkippingInvalid names) = [].
Proof. induction names; simpl; auto. Qed.

(** With nothing above the current version the loop only warns. *)
Lemma migrate_loop_nothing_to_do current files :
  (forall v, In v (parsed files) -> v <= current) ->
  forall c n,
    migrate_loop w current files c n =
    {| ending := Completed; conn_after := c; applied_count := n;
       printed := map SkippingInvalid (filter unparsable files) |}.
Proof.
  induction files as [|f files IH]; intros H c n; [reflexivity|].
  cbn [migrate_loop parsed filter] in *. unfold unparsable at 1.
  destruct (Name.parse_version f) as [v|] eqn:P.
  - assert (G : (v >? current) = false).
    { rewrite Z.gtb_ltb. apply Z.ltb_ge, H. now left. }
    rewrite G. apply IH. intros u Hu. apply H. now right.
  - rewrite (IH H c n). reflexivity.
Qed.

(** A run starts the application of versions above the current one
    only. *)
Lemma main_attempted_above db (v : Z) :
  In v (attempted (stdout (main w db))) ->
  current_version db < v /\ ~ In v (versions db).
Proof.
  intros H.
  assert (G : current_version db < v).
  { destruct (migrations_dir w) as [entries|] eqn:D.
    - destruct (main_observed w db entries D) as (At & _).
      rewrite At in H. apply attempted_In in H as [f H].
      destruct (loop_of_facts w db entries) as (_ & (_ & Ap & _) & _).
      now apply Ap in H.
    - rewrite (main_missing_directory w db D) in H. destruct H. }
  split; [exact G|]. intros I. apply current_version_upper in I. lia.
Qed.

(** What goes through was started. *)
Lemma main_succeeded_attempted db (v : Z) :
  In v (succeeded (stdout (main w db))) -> In v (attempted (stdout (main w db))).
Proof.
  destruct (migrations_dir w) as [entries|] eqn:D.
  - destruct (main_observed w db entries D) as (-> & -> & _).
    destruct (loop_of_facts w db entries) as (_ & _ & rest & _ & En).
    destruct (ending (loop_of w db entries)) as [|u].
    + destruct En as (_ & -> & _). auto.
    + destruct En as (-> & _). intros H. apply in_or_app. now left.
  - rewrite (main_missing_directory w db D). intros [].
Qed.

Hypothesis Safe : ledger_safe w.

(** The ledger a run leaves when no body writes it: the rows that were
    there, then one row per applied unit, all above the version the run
    started from. *)
Lemma main_versions db :
  exists new,
    versions (store (main w db)) = versions db ++ new /\
    new = succeeded (stdout (main w db)) /\
    Forall (fun v => current_version db < v) new /\
    NoDup new /\
    (forall v, In v new -> ~ In v (versions db)) /\
    (migrations_dir w <> None ->
     exists rows, schema_version (store (main w db)) = Some rows).
Proof.
  destruct (migrations_dir w) as [entries|] eqn:D.
  - destruct (main_store w db entries (fun f _ _ _ _ => Safe f) D)
      as (_ & rows & new & _ & V & L & Mv & _ & N & F).
    exists (map version new). rewrite <- Mv.
    unfold versions at 1. rewrite L, map_app, V.
    split; [reflexivity|]. split; [reflexivity|].
    rewrite Forall_forall in F.
    split; [|split; [exact N|split]].
    + apply Forall_forall. intros v Hv.
      apply in_map_iff in Hv as (r & <- & Hr). now apply F.
    + intros v Hv. apply in_map_iff in Hv as (r & <- & Hr). now apply F.
    + intros _. eauto.
  - rewrite (main_missing_directory w db D). simpl. exists [].
    rewrite app_nil_r. repeat split; auto; try constructor; tauto.
Qed.

(** Such a run never lowers the current version. *)
Lemma main_current_version db :
  current_version db <= current_version (store (main w db)).
Proof.
  destruct (main_versions db) as (new & V & _ & F & _).
  destruct (current_version_cases db) as [[E Z]|I].
  - rewrite Z. rewrite E in V. simpl in V.
    destruct (current_version_cases (store (main w db))) as [[_ ->]|I];
      [lia|].
    rewrite V in I. rewrite Forall_forall in F. apply F in I. lia.
  - apply current_version_upper. rewrite V. apply in_or_app. now left.
Qed.

End Rerun.




(** ** Ordinal zero *)




(** ** Two units with one version *)

Lemma insert_sorted_perm (x : string) (l : list string) :
  Permutation (insert_sorted x l) (x :: l).
Proof.
  induction l as [|y l IH]; simpl; [apply Permutation_refl|].
  destruct (String.leb x y); [apply Permutation_refl|].
  eapply Permutation_trans; [apply perm_skip, IH|apply perm_swap].
Qed.

Lemma sorted_perm (l : list string) : Permutation (sorted l) l.
Proof.
  induction l as [|x l IH]; simpl; [constructor|].
  eapply Permutation_trans; [apply insert_sorted_perm|now apply perm_skip].
Qed.

Lemma sorted_glob_NoDup (entries : list string) :
  NoDup entries -> NoDup (sorted (glob_sql entries)).
Proof.
  intros N. apply (Permutation_NoDup (Permutation_sym (sorted_perm _))).
  unfold glob_sql. now apply NoDup_filter.
Qed.

Lemma parsed_app (l1 l2 : list string) :
  parsed (l1 ++ l2) = parsed l1 ++ parsed l2.
Proof.
  induction l1 as [|f l1 IH]; simpl; [reflexivity|].
  destruct (Name.parse_version f); simpl; congruence.
Qed.

Lemma NoDup_map_same {A B : Type} (f : A -> B) (l : list A) (a b : A) :
  NoDup (map f l) -> In a l -> In b l -> f a = f b -> a = b.
Proof.
  induction l as [|x l IH]; simpl; [tauto|].
  intros N Ha Hb E. inversion N as [|? ? Nx Nl]; subst.
  destruct Ha as [->|Ha], Hb as [->|Hb]; auto.
  - exfalso. apply Nx. rewrite E. now apply in_map.
  - exfalso. apply Nx. rewrite <- E. now apply in_map.
Qed.

Lemma filter_filter_comm {A : Type} (p q : A -> bool) (l : list A) :
  filter p (filter q l) = filter q (filter p l).
Proof.
  induction l as [|x l IH]; simpl; [reflexivity|].
  destruct (p x) eqn:Px, (q x) eqn:Qx; simpl; rewrite ?Px, ?Qx; congruence.
Qed.

(** Among the files that parse to candidates with different versions, a
    version names its file. *)
Lemma candidate_file_unique (current : Z) (files : list string)
    (f g : string) (v : Z) :
  NoDup (filter (fun v => v >? current) (parsed files)) ->
  In f files -> In g files ->
  Name.parse_version f = Some v -> Name.parse_version g = Some v ->
  current < v -> f = g.
Proof.
  intros N Hf Hg Pf Pg G.
  assert (Gb : (v >? current) = true) by (apply Z.gtb_gt; lia).
  induction files as [|x files IH]; [destruct Hf|].
  cbn [parsed] in N.
  assert (Tail : forall h, In h files -> Name.parse_version h = Some v ->
                           In v (filter (fun v => v >? current) (parsed files))).
  { intros h Hh Ph. apply filter_In. split; [|exact Gb].
    apply parsed_In. now exists h. }
  destruct Hf as [->|Hf], Hg as [->|Hg]; auto.
  - rewrite Pf in N. cbn [filter] in N. rewrite Gb in N.
    inversion N as [|? ? Nv _]; subst. exfalso. eapply Nv, Tail; eauto.
  - rewrite Pg in N. cbn [filter] in N. rewrite Gb in N.
    inversion N as [|? ? Nv _]; subst. exfalso. eapply Nv, Tail; eauto.
  - apply IH; auto.
    destruct (Name.parse_version x) as [u|]; [|exact N].
    cbn [filter] in N. destruct (u >? current); [|exact N].
    now inversion N.
Qed.

(** *** The names that sort before a name *)

Section Cut.

Lemma ltb_leb (x name : string) :
  String.ltb x name = true <-> le_name x name /\ x <> name.
Proof.
  unfold le_name, String.ltb, String.leb.
  destruct (String.compare x name) eqn:E.
  - apply String.compare_eq_iff in E. subst. split; [discriminate|].
    intros [_ H]. now contradiction H.
  - split; [|reflexivity]. intros _. split; [reflexivity|].
    intros ->. rewrite string_compare_refl in E. discriminate.
  - split; [discriminate|]. intros [H _]. discriminate.
Qed.

Lemma ltb_false_leb (x name : string) :
  String.ltb x name = false -> le_name name x.
Proof.
  unfold le_name, String.ltb, String.leb.
  rewrite (String.compare_antisym name x).
  destruct (String.compare x name); simpl; try discriminate; auto.
Qed.

(** A sorted list that holds a name is the names that sort before it,
    then the name, then the rest. *)
Lemma sorted_before_name (l : list string) (name : string) :
  StronglySorted le_name l -> In name l ->
  exists post, l = filter (sorts_before name) l ++ name :: post.
Proof.
  induction 1 as [|x l S IH F]; intros I; [destruct I|].
  cbn [filter]. unfold sorts_before at 1.
  destruct (String.ltb x name) eqn:E.
  - apply ltb_leb in E as [_ Ne].
    destruct I as [->|I]; [now contradiction Ne|].
    destruct (IH I) as [post Hp]. exists post. simpl. now rewrite <- Hp.
  - apply ltb_false_leb in E.
    assert (x = name) as ->.
    { destruct I as [->|I]; [reflexivity|].
      rewrite Forall_forall in F. apply String.leb_antisym; [now apply F|exact E]. }
    exists l. simpl. f_equal.
    assert (Em : filter (sorts_before name) l = []).
    { clear IH I S. induction l as [|y l IHl]; [reflexivity|].
      inversion F as [|? ? Fy Fl]; subst. simpl. unfold sorts_before at 1.
      destruct (String.ltb y name) eqn:Ey; [|now apply IHl].
      apply ltb_leb in Ey as [Le Ne]. exfalso. apply Ne.
      now apply String.leb_antisym. }
    now rewrite Em.
Qed.

(** The files the loop takes before it comes to a name are those of the
    directory cut before that name. *)
Lemma sorted_glob_before (entries : list string) (name : string) :
  filter (sorts_before name) (sorted (glob_sql entries)) =
  sorted (glob_sql (filter (sorts_before name) entries)).
Proof.
  unfold glob_sql. now rewrite filter_sorted, filter_filter_comm.
Qed.

Lemma loop_of_before {data : Type} (w : world data) (db : database data)
    (entries : list string) (name : string) :
  loop_of (before name w) db (filter (sorts_before name) entries) =
  migrate_loop w (current_version db)
    (filter (sorts_before name) (sorted (glob_sql entries)))
    (connect (create_if_not_exists db)) 0.
Proof. unfold loop_of. now rewrite sorted_glob_before. Qed.

End Cut.

(** *** Candidates that are reached *)

Section Reach.

Context {data : Type} (w : world data).
Implicit Types (c : connection data).

Variable current : Z.

(** The loop up to one candidate of its list, and what it does there. *)
Lemma migrate_loop_reach pre f post v :
  Name.parse_version f = Some v -> current < v ->
  forall c n,
    let r1 := migrate_loop w current pre c n in
    let r := migrate_loop w current (pre ++ f :: post) c n in
    match ending r1 with
    | Failed _ => r = r1
    | Completed =>
        match apply_migration w (conn_after r1) f v with
        | (true, c', out) =>
            let r2 := migrate_loop w current post c' (S (applied_count r1)) in
            ending r = ending r2 /\ conn_after r = conn_after r2 /\
            printed r = printed r1 ++ out ++ printed r2
        | (false, c', out) =>
            ending r = Failed v /\ conn_after r = c' /\
            printed r = printed r1 ++ out ++ [StoppedAt v]
        end
    end.
Proof.
  intros P G c n. cbv zeta. rewrite migrate_loop_app. cbv zeta.
  destruct (ending (migrate_loop w current pre c n)); [|reflexivity].
  cbn [migrate_loop]. rewrite P.
  assert (Gb : (v >? current) = true) by (apply Z.gtb_gt; lia).
  rewrite Gb.
  destruct (apply_migration w _ f v) as [[[|] c'] out];
    cbn [ending conn_after printed]; auto.
Qed.

(** A candidate of a loop that went through was applied. *)
Lemma migrate_loop_applied pre f post v c n :
  Name.parse_version f = Some v -> current < v ->
  let r := migrate_loop w current (pre ++ f :: post) c n in
  ending r = Completed ->
  In (Applying v f) (printed r) /\ In (AppliedSuccessfully v) (printed r).
Proof.
  intros P G. cbv zeta. intros E.
  pose proof (migrate_loop_reach pre f post v P G c n) as Rc. cbv zeta in Rc.
  destruct (ending (migrate_loop w current pre c n)) eqn:E1.
  - destruct (apply_migration w _ f v) as [[[|] c'] out] eqn:A.
    + destruct Rc as (_ & _ & ->).
      rewrite (apply_migration_success w _ _ _ _ _ A).
      split; apply in_or_app; right; simpl; auto.
    + destruct Rc as (Ef & _). congruence.
  - rewrite Rc in E. congruence.
Qed.

(** The versions a loop that went through has applied are its
    candidates. *)
Lemma migrate_loop_completed files c n :
  ending (migrate_loop w current files c n) = Completed ->
  succeeded (printed (migrate_loop w current files c n)) =
  filter (fun v => v >? current) (parsed files).
Proof.
  intros E. destruct (migrate_loop_order w current files c n) as (rest & C & M).
  rewrite E in M. destruct M as (-> & <- & _). now rewrite app_nil_r in C.
Qed.

(** Applying a readable unit with a body that cannot fail and keeps the
    ledger, and a version that is new to the ledger and fits, goes
    through. *)
Lemma apply_migration_succeeds c f v rows :
  idle c -> schema_version (disk c) = Some rows ->
  has_version v rows = false -> applicable w f v ->
  exists c',
    apply_migration w c f v = (true, c', [Applying v f; AppliedSuccessfully v]) /\
    idle c' /\
    schema_version (disk c') = Some (rows ++ [record_of w f v]).
Proof.
  intros I L H (Fit & text & body & R & Inf & K). unfold apply_migration.
  rewrite R. unfold idle in I. unfold exec_statement. rewrite I.
  set (c1 := {| disk := disk c; txn := Some (disk c) |}).
  assert (S1 : same_ledger (Some rows) c1) by (split; exact L).
  pose proof (executescript_ledger _ c1 body K S1) as [_ S2].
  pose proof (Inf (commit c1)) as Ok.
  unfold executescript in *.
  destruct (run_statements (commit c1) body) as [c2 b]. simpl in *.
  subst b. unfold insert_version. simpl version.
  rewrite Fit, S2, H. simpl. eexists. split; [reflexivity|].
  split; reflexivity.
Qed.

(** Applying a unit whose version the ledger holds: with a readable file
    and a body that goes through and keeps the ledger, it is the insert
    that fails, and the ledger stays. *)
Lemma apply_migration_duplicate c f v rows text body :
  idle c -> schema_version (disk c) = Some rows ->
  has_version v rows = true -> fits_int64 v = true ->
  open_read w f = Contents text body -> infallible body ->
  Forall keeps_ledger body ->
  exists c',
    apply_migration w c f v =
    (false, c', Applying v f :: integrity_error v f text) /\
    idle c' /\ schema_version (disk c') = Some rows.
Proof.
  intros I L H Fit R Inf K. unfold apply_migration. rewrite R.
  unfold idle in I. unfold exec_statement. rewrite I.
  set (c1 := {| disk := disk c; txn := Some (disk c) |}).
  assert (S1 : same_ledger (Some rows) c1) by (split; exact L).
  pose proof (executescript_ledger _ c1 body K S1) as [S2d S2].
  pose proof (Inf (commit c1)) as Ok.
  unfold executescript in *.
  destruct (run_statements (commit c1) body) as [c2 b]. simpl in *.
  subst b. unfold insert_version. simpl version.
  rewrite Fit, S2, H. simpl. eexists. split; [reflexivity|].
  split; [reflexivity|exact S2d].
Qed.

(** With candidates that can all be applied and carry different
    versions, new to the ledger, the loop goes through. *)
Lemma migrate_loop_sound files :
  forall c n rows,
    idle c -> schema_version (disk c) = Some rows ->
    (forall f v, In f files -> Name.parse_version f = Some v ->
                 current < v -> applicable w f v) ->
    NoDup (filter (fun v => v >? current) (parsed files)) ->
    (forall v, In v (filter (fun v => v >? current) (parsed files)) ->
               ~ In v (map version rows)) ->
    ending (migrate_loop w current files c n) = Completed.
Proof.
  induction files as [|f files IH]; intros c n rows I L A N F;
    [reflexivity|].
  cbn [migrate_loop parsed] in *.
  destruct (Name.parse_version f) as [v|] eqn:P.
  - cbn [filter] in N, F.
    destruct (v >? current) eqn:G.
    + inversion N as [|? ? Nv Nl]; subst.
      assert (H : has_version v rows = false).
      { destruct (has_version v rows) eqn:H; [|reflexivity].
        apply has_version_In in H. exfalso. apply (F v); [now left|exact H]. }
      apply Z.gtb_gt in G.
      destruct (apply_migration_succeeds c f v rows I L H)
        as (c' & -> & I' & L').
      { apply A; [now left|exact P|lia]. }
      cbn [ending]. apply (IH c' (S n) _ I' L'); auto.
      * intros g u Hg. apply A. now right.
      * intros u Hu Hin. rewrite map_app in Hin.
        apply in_app_or in Hin as [Hin|[<-|[]]].
        -- apply (F u); [now right|exact Hin].
        -- contradiction.
    + apply (IH c n rows I L); auto. intros g u Hg. apply A. now right.
  - cbn [ending]. apply (IH c n rows I L); auto.
    intros g u Hg. apply A. now right.
Qed.

(** A candidate whose version the loop before it has applied: when the
    bodies keep the ledger, the loop fails, at that candidate or before
    it. *)
Lemma migrate_loop_duplicate_fails files n1 n2 post v :
  In n1 files ->
  Name.parse_version n1 = Some v -> Name.parse_version n2 = Some v ->
  current < v ->
  (forall f u, In f (files ++ [n2]) -> Name.parse_version f = Some u ->
               current < u -> body_keeps_ledger w f) ->
  forall c n rows,
    idle c -> schema_version (disk c) = Some rows ->
    exists u, ending (migrate_loop w current (files ++ n2 :: post) c n) = Failed u.
Proof.
  intros I1 P1 P2 G K c n rows I L.
  pose proof (migrate_loop_reach files n2 post v P2 G c n) as Rc.
  cbv zeta in Rc.
  destruct (migrate_loop_store w current files
              (fun f u Hf => K f u (in_or_app _ _ _ (or_introl Hf)))
              c n rows I L) as (I' & new & L' & Mv & _).
  destruct (ending (migrate_loop w current files c n)) as [|u] eqn:E1.
  - destruct (apply_migration w _ n2 v) as [[[|] c'] out] eqn:A.
    + exfalso.
      assert (K2 : body_keeps_ledger w n2).
      { apply (K n2 v); auto. apply in_or_app. right. now left. }
      destruct (apply_migration_spec w _ n2 v _ K2 I' L' _ _ _ A)
        as (_ & _ & H).
      assert (Hv : has_version v (rows ++ new) = true).
      { apply has_version_In. rewrite map_app. apply in_or_app. right.
        rewrite Mv, (migrate_loop_completed _ _ _ E1).
        apply filter_In. split.
        - apply parsed_In. now exists n1.
        - apply Z.gtb_gt. lia. }
      congruence.
    + destruct Rc as (-> & _). now exists v.
  - rewrite Rc, E1. now exists u.
Qed.

(** The same when the loop before the candidate went through and the
    candidate has a readable file and a body that cannot fail and keeps
    the ledger: the insert fails on the key. *)
Lemma migrate_loop_collision files n1 n2 post v text body :
  In n1 files ->
  Name.parse_version n1 = Some v -> Name.parse_version n2 = Some v ->
  current < v ->
  (forall f u, In f files -> Name.parse_version f = Some u ->
               current < u -> body_keeps_ledger w f) ->
  open_read w n2 = Contents text body -> infallible body ->
  Forall keeps_ledger body ->
  forall c n rows,
    idle c -> schema_version (disk c) = Some rows ->
    let r0 := migrate_loop w current files c n in
    let r := migrate_loop w current (files ++ n2 :: post) c n in
    ending r0 = Completed ->
    ending r = Failed v /\
    printed r =
      printed r0 ++ (Applying v n2 :: integrity_error v n2 text) ++
      [StoppedAt v] /\
    schema_version (disk (conn_after r)) =
      schema_version (disk (conn_after r0)).
Proof.
  intros I1 P1 P2 G K R Inf Kb c n rows I L. cbv zeta. intros E1.
  pose proof (migrate_loop_reach files n2 post v P2 G c n) as Rc.
  cbv zeta in Rc. rewrite E1 in Rc.
  destruct (migrate_loop_store w current files K c n rows I L)
    as (I' & new & L' & Mv & _ & _ & Fr).
  assert (Hv : In v (map version new)).
  { rewrite Mv, (migrate_loop_completed _ _ _ E1).
    apply filter_In. split.
    - apply parsed_In. now exists n1.
    - apply Z.gtb_gt. lia. }
  assert (Fit : fits_int64 v = true).
  { apply in_map_iff in Hv as (rec & <- & Hr).
    rewrite Forall_forall in Fr. now apply Fr. }
  assert (Has : has_version v (rows ++ new) = true).
  { apply has_version_In. rewrite map_app. apply in_or_app. now right. }
  destruct (apply_migration_duplicate _ n2 v _ text body I' L' Has Fit R Inf Kb)
    as (c' & A & _ & Lc).
  rewrite A in Rc. destruct Rc as (-> & -> & ->).
  split; [reflexivity|]. split; [reflexivity|]. now rewrite Lc, L'.
Qed.

End Reach.




(** ** Malformed names *)

Section Malformed.

Context {data : Type} (w : world data).
Implicit Types (c : connection data).

(** A name that does not parse leaves the loop as it would be without
    it, but for the warning. *)
Lemma migrate_loop_skip current name files :
  Name.parse_version name = None ->
  forall c n,
    let r := migrate_loop w current files c n in
    let r' := migrate_loop w current (filter (other_than name) files) c n in
    ending r = ending r' /\
    conn_after r = conn_after r' /\
    applied_count r = applied_count r' /\
    attempted (printed r) = attempted (printed r') /\
    succeeded (printed r) = succeeded (printed r').
Proof.
  intros P. induction files as [|f files IH]; intros c n; cbv zeta.
  - simpl. auto.
  - cbn [filter]. destruct (other_than name f) eqn:O.
    + cbn [migrate_loop].
      destruct (Name.parse_version f) as [v|].
      * destruct (v >? current); [|apply IH].
        destruct (apply_migration w c f v) as [[[|] c'] out].
        -- cbn [ending conn_after applied_count printed].
           rewrite !attempted_app, !succeeded_app.
           destruct (IH c' (S n)) as (E1 & E2 & E3 & E4 & E5).
           now rewrite E1, E2, E3, E4, E5.
        -- cbn [ending conn_after applied_count printed]. auto.
      * cbn [ending conn_after applied_count printed attempted succeeded].
        apply IH.
    + assert (f = name) as ->.
      { unfold other_than in O. apply negb_false_iff in O.
        now apply String.eqb_eq. }
      cbn [migrate_loop]. rewrite P.
      cbn [ending conn_after applied_count printed attempted succeeded].
      apply IH.
Qed.

Lemma loop_of_without db entries name :
  loop_of (without name w) db (filter (other_than name) entries) =
  migrate_loop w (current_version db)
    (filter (other_than name) (sorted (glob_sql entries)))
    (connect (create_if_not_exists db)) 0.
Proof.
  unfold loop_of, glob_sql.
  now rewrite filter_filter_comm, <- filter_sorted.
Qed.

(** The warning for a name that does not parse is printed when the loop
    over the files that sort before it goes through, and only then. *)
Lemma migrate_loop_warns current name files :
  Name.parse_version name = None ->
  StronglySorted le_name files -> In name files ->
  forall c n,
    In (SkippingInvalid name) (printed (migrate_loop w current files c n)) <->
    ending (migrate_loop w current (filter (sorts_before name) files) c n) =
    Completed.
Proof.
  intros P S I c n.
  destruct (sorted_before_name files name S I) as [post Sp].
  set (pre := filter (sorts_before name) files) in *.
  rewrite Sp at 1. rewrite migrate_loop_app. cbv zeta.
  destruct (migrate_loop_lines w current pre c n) as (_ & _ & Sk & _).
  destruct (ending (migrate_loop w current pre c n)) as [|u].
  - cbn [printed migrate_loop]. rewrite P. cbn [printed].
    split; [reflexivity|]. intros _. apply in_or_app. right. now left.
  - split; [|discriminate]. intros H. exfalso.
    apply Sk in H as [H _]. apply filter_In in H as [_ H].
    apply ltb_leb in H as [_ H]. now apply H.
Qed.

End Malformed.

(** The listing order does not reach the run. *)
Lemma main_permutation {data : Type} (w w' : world data) (db : database data)
    (l l' : list string) :
  migrations_dir w = Some l -> migrations_dir w' = Some l' ->
  Permutation l l' -> open_read w = open_read w' -> now w = now w' ->
  main w db = main w' db.
Proof.
  destruct w as [d o t], w' as [d' o' t']. simpl.
  intros -> -> P <- <-. unfold main. simpl.
  now rewrite (sorted_permutation _ _ (glob_sql_permutation _ _ P)).
Qed.

(** C5, as stated, fails in two ways.  A name whose ordinal parses to a
    negative integer, [-1_x.sql], does not parse to a non-negative
    ordinal; it is not applied, and no warning is printed for it.  And a
    name that does not parse gets no warning when the run stops before
    the loop comes to it: [notanumber_bad.sql] sorts behind
    [0001_a.sql], whose body is broken. *)
Lemma malformed_name_without_warning :
  let m := main Example.negative_ordinal Example.fresh in
  let l := main Example.late_malformed Example.fresh in
  (Name.is_sql "-1_x.sql" = true /\
   Name.parse_version "-1_x.sql" = Some (-1) /\
   ~ (exists v, 0 <= v /\ Name.parse_version "-1_x.sql" = Some v) /\
   exit_code m = 0 /\
   attempted (stdout m) = [] /\
   ~ In (SkippingInvalid "-1_x.sql") (stdout m)) /\
  (Name.is_sql "notanumber_bad.sql" = true /\
   Name.parse_version "notanumber_bad.sql" = None /\
   exit_code l = 1 /\
   attempted (stdout l) = [1] /\
   warnings (stdout l) = [] /\
   ~ In (SkippingInvalid "notanumber_bad.sql") (stdout l)).
Proof.
  cbv zeta. split.
  - split; [reflexivity|]. split; [reflexivity|]. split.
    + intros (v & Pos & E). vm_compute in E. injection E as <-. lia.
    + split; [reflexivity|]. split; [reflexivity|].
      intros H. vm_compute in H.
      repeat (destruct H as [H|H]; [discriminate|]). exact H.
  - repeat split; try reflexivity.
    intros H. vm_compute in H.
    repeat (destruct H as [H|H]; [discriminate|]). exact H.
Qed.

(** C5, amended: in a directory of ASCII names an entry whose ordinal
    the integer parser rejects is skipped and never aborts the run: the
    exit status, the store, the applied count and the applications are
    those of the run without that entry, and the entry itself is never
    applied.  The warning for it is printed exactly when the loop comes
    to it, that is when the run over the entries that sort before it
    exits with 0; so it is in every run that exits with 0.  The directory
    with [0001_init.sql], [notanumber_bad.sql] and [0002_add_index.sql],
    in whatever order it is listed, gives the candidates 1 and 2; on a
    fresh store and with valid bodies both are applied, the run exits
    with 0, and the one warning is for the malformed name. *)
Theorem malformed_name_skipped {data : Type} (w : world data)
    (db : database data) (entries : list string) (name : string) :
  migrations_dir w = Some entries ->
  ascii_names entries ->
  In name entries ->
  Name.is_sql name = true ->
  Name.parse_version name = None ->
  let m := main w db in
  let m' := main (without name w) db in
  (exit_code m = exit_code m' /\
   store m = store m' /\
   applied m = applied m' /\
   attempted (stdout m) = attempted (stdout m') /\
   succeeded (stdout m) = succeeded (stdout m')) /\
  (forall v, ~ In (Applying v name) (stdout m)) /\
  (In (SkippingInvalid name) (stdout m) <->
   exit_code (main (before name w) db) = 0) /\
  (exit_code m = 0 -> In (SkippingInvalid name) (stdout m)) /\
  (forall listing,
     Permutation listing
       ["0001_init.sql"; "notanumber_bad.sql"; "0002_add_index.sql"]%string ->
     let e := main (Example.with_malformed listing) Example.fresh in
     candidates 0 listing = [1; 2] /\
     attempted (stdout e) = [1; 2] /\
     succeeded (stdout e) = [1; 2] /\
     exit_code e = 0 /\
     warnings (stdout e) = ["notanumber_bad.sql"%string]).
Proof.
  intros D _ I Q P. cbv zeta.
  assert (D' : migrations_dir (without name w) =
               Some (filter (other_than name) entries))
    by (unfold without; simpl; now rewrite D).
  assert (Db : migrations_dir (before name w) =
               Some (filter (sorts_before name) entries))
    by (unfold before; simpl; now rewrite D).
  destruct (main_of_loop w db entries D) as (Ex & St & Ap & _).
  destruct (main_observed w db entries D) as (At & Su & Wa & Ln).
  destruct (main_of_loop _ db _ D') as (Ex' & St' & Ap' & _).
  destruct (main_observed _ db _ D') as (At' & Su' & _).
  rewrite loop_of_without in Ex', St', Ap', At', Su'.
  destruct (migrate_loop_skip w (current_version db) name
              (sorted (glob_sql entries)) P
              (connect (create_if_not_exists db)) 0%nat)
    as (E1 & E2 & E3 & E4 & E5).
  fold (loop_of w db entries) in E1, E2, E3, E4, E5.
  destruct (loop_of_facts w db entries)
    as (_ & (_ & Apl & _) & rest & _ & En).
  assert (Fi : In name (sorted (glob_sql entries))).
  { apply sorted_In, filter_In. auto. }
  split; [|split; [|split; [|split]]].
  - rewrite Ex, St, Ap, At, Su, Ex', St', Ap', At', Su'.
    now rewrite E1, E2, E3, E4, E5.
  - intros v A. apply Ln in A; [|reflexivity].
    apply Apl in A as (_ & Pv & _). congruence.
  - destruct (main_exit_code (before name w) db _ Db) as [-> _].
    rewrite loop_of_before.
    rewrite <- (migrate_loop_warns w (current_version db) name _ P
                  (sorted_ordered _) Fi).
    now apply Ln.
  - rewrite Ex. intros Z0.
    destruct (ending (loop_of w db entries)); [|discriminate].
    destruct En as (_ & _ & W & _).
    apply warnings_In. rewrite Wa, W.
    apply filter_In. split; [exact Fi|].
    unfold unparsable. now rewrite P.
  - intros listing Pm. cbv zeta.
    rewrite (main_permutation (Example.with_malformed listing)
               (Example.with_malformed
                  ["0001_init.sql"; "notanumber_bad.sql"; "0002_add_index.sql"]%string)
               Example.fresh _ _ eq_refl eq_refl Pm eq_refl eq_refl).
    unfold candidates. rewrite (discovered_permutation _ _ (Permutation_sym Pm)).
    repeat split; reflexivity.
Qed.

(** [malformed_name_skipped] on the directory of the claim, listed with
    the malformed name first. *)
Lemma malformed_name_skipped_witness :
  let listing :=
    ["notanumber_bad.sql"; "0001_init.sql"; "0002_add_index.sql"]%string in
  let m := main (Example.with_malformed listing) Example.fresh in
  ascii_names listing /\
  Name.parse_version "notanumber_bad.sql" = None /\
  exit_code m = 0 /\
  exit_code (main (before "notanumber_bad.sql"
                     (Example.with_malformed listing)) Example.fresh) = 0 /\
  In (SkippingInvalid "notanumber_bad.sql") (stdout m) /\
  attempted (stdout m) = [1; 2].
Proof.
  cbv zeta.
  assert (A : ascii_names
                ["notanumber_bad.sql"; "0001_init.sql"; "0002_add_index.sql"]%string)
    by (repeat constructor).
  destruct (malformed_name_skipped
              (Example.with_malformed
                 ["notanumber_bad.sql"; "0001_init.sql"; "0002_add_index.sql"]%string)
              Example.fresh _ "notanumber_bad.sql"
              eq_refl A (or_introl eq_refl) eq_refl eq_refl)
    as (_ & _ & [_ W] & _ & Ex).
  split; [exact A|]. split; [reflexivity|]. split; [reflexivity|].
  split; [reflexivity|]. split; [now apply W|].
  apply (Ex ["notanumber_bad.sql"; "0001_init.sql"; "0002_add_index.sql"]%string).
  apply perm_swap.
Defined.


(** * Further properties of the runner *)

(** ** [get_current_version] *)

(** X1: [get_current_version] can be called again at no cost: the second
    call changes nothing and returns the same version, and the first one
    changes neither the application's data nor the rows of the ledger,
    on disk or in an open transaction; all it may do is create the empty
    table. *)
Theorem get_current_version_again {data : Type} (c : connection data) :
  let c1 := fst (get_current_version c) in
  get_current_version c1 = (c1, snd (get_current_version c)) /\
  user_data (visible c1) = user_data (visible c) /\
  user_data (disk c1) = user_data (disk c) /\
  versions (disk c1) = versions (disk c) /\
  (txn c = None <-> txn c1 = None).
Proof.
  cbv zeta. unfold get_current_version, visible, versions.
  destruct c as [d [t|]]; cbn [fst snd txn disk]; unfold create_if_not_exists.
  - destruct (schema_version t) as [rows|] eqn:E; cbn [schema_version user_data];
      rewrite ?E; repeat split; auto; discriminate.
  - destruct (schema_version d) as [rows|] eqn:E; cbn [schema_version user_data];
      rewrite ?E; repeat split; auto.
Qed.

(** ** [apply_migration] *)

Section ApplyMore.

Context {data : Type} (w : world data).
Implicit Types (c : connection data).


(** X3: when [apply_migration] returns [False] on a connection without
    open transaction, no transaction is left open and the runner has
    written nothing of its own: the file is as the statements of the
    body that ran left it, and as it was when the file could not be
    read; so the ledger is as it was, whether the table exists or not,
    when the body does not write [schema_version].  The output holds the
    line that starts the application and a diagnostic for the version,
    and no line of success. *)
Theorem apply_migration_failure c f v c' out :
  idle c ->
  apply_migration w c f v = (false, c', out) ->
  idle c' /\
  (forall text body,
     open_read w f = Contents text body ->
     disk c' =
     disk (fst (executescript {| disk := disk c; txn := Some (disk c) |} body))) /\
  ((forall text body, open_read w f <> Contents text body) ->
   disk c' = disk c) /\
  (body_keeps_ledger w f ->
   schema_version (disk c') = schema_version (disk c)) /\
  attempted out = [v] /\
  succeeded out = [] /\
  existsb (diagnostic_of v) out = true.
Proof.
  intros I A.
  destruct (apply_migration_lines w c f v _ _ _ A)
    as (At & _ & _ & _ & Id & Su & Dg).
  split; [now apply Id|].
  split; [|split; [|split; [|auto]]]; revert A; unfold apply_migration.
  - intros A text body R. rewrite R in A.
    unfold idle in I. unfold exec_statement in A. rewrite I in A.
    destruct (executescript _ body) as [c2 [|]]; cbn [fst].
    + destruct (insert_version c2 _) as [[| | |]|c3]; try discriminate;
        now injection A as <- _.
    + now injection A as <- _.
  - intros A N. destruct (open_read w f) as [text sql| |] eqn:R.
    + now contradiction (N text sql).
    + now injection A as <- _.
    + now injection A as <- _.
  - intros A K. destruct (open_read w f) as [text sql| |] eqn:R.
    + unfold idle in I. unfold exec_statement in A. rewrite I in A.
      set (c1 := {| disk := disk c; txn := Some (disk c) |}) in *.
      assert (S1 : same_ledger (schema_version (disk c)) c1)
        by (split; reflexivity).
      pose proof (executescript_ledger _ c1 sql (K _ _ R) S1) as [S2 _].
      destruct (executescript c1 sql) as [c2 [|]]; cbn [fst] in S2.
      * destruct (insert_version c2 _) as [[| | |]|c3]; try discriminate;
          now injection A as <- _.
      * now injection A as <- _.
    + now injection A as <- _.
    + now injection A as <- _.
Qed.

(** Statements on the data inside an open transaction leave the file
    alone and the transaction open. *)
Lemma run_statements_in_transaction (fs : list (data -> option data)) :
  forall c t,
    txn c = Some t ->
    disk (fst (run_statements c (map Exec fs))) = disk c /\
    exists t', txn (fst (run_statements c (map Exec fs))) = Some t'.
Proof.
  induction fs as [|g fs IH]; intros c t T; simpl.
  - split; [reflexivity|]. now exists t.
  - unfold exec_statement. rewrite T.
    destruct (g (user_data t)) as [d|]; simpl.
    + destruct (IH {| disk := disk c; txn := Some (with_data t d) |}
                  (with_data t d) eq_refl) as [Dk Tx].
      simpl in Dk. auto.
    + split; [reflexivity|]. now exists t.
Qed.

(** X4: a body that opens a transaction of its own ([BEGIN] followed by
    statements on the data) is applied all or nothing: when
    [apply_migration] returns [False] the file is exactly as it was,
    whether a statement of the body or the insert into the ledger
    failed. *)
Theorem own_transaction_all_or_nothing c f v text fs c' out :
  idle c ->
  open_read w f = Contents text (own_transaction fs) ->
  apply_migration w c f v = (false, c', out) ->
  c' = c.
Proof.
  intros I R. unfold apply_migration. rewrite R.
  unfold idle in I. destruct c as [d t]. simpl in I. subst t.
  unfold exec_statement at 1. cbn [txn disk].
  unfold executescript, own_transaction, commit, visible. cbn [txn disk].
  cbn [run_statements]. unfold exec_statement at 1. cbn [txn disk].
  destruct (run_statements_in_transaction fs
              {| disk := d; txn := Some d |} d eq_refl) as [Dk [t' Tx]].
  destruct (run_statements {| disk := d; txn := Some d |} (map Exec fs))
    as [c2 [|]]; simpl in Dk, Tx.
  - destruct (insert_version c2 _) as [[| | |]|c3]; intros [= <- _];
      unfold rollback; now rewrite Dk.
  - intros [= <- _]. unfold rollback. now rewrite Dk.
Qed.

End ApplyMore.


(** [apply_migration_failure] on the second of the two units with ordinal
    5. *)
Lemma apply_migration_failure_witness :
  let c := connect {| user_data := ["a"%string];
                      schema_version := Some [Example.row 5 "0005_a"] |} in
  exists c' out,
    apply_migration Example.twins c "0005_b.sql" 5 = (false, c', out) /\
    schema_version (disk c') = schema_version (disk c) /\
    txn c' = None.
Proof.
  cbv zeta. eexists _, _. split; [reflexivity|].
  destruct (apply_migration_failure Example.twins
              (connect {| user_data := ["a"%string];
                          schema_version := Some [Example.row 5 "0005_a"] |})
              "0005_b.sql" 5 _ _ eq_refl eq_refl) as (I & _ & _ & L & _).
  split; [|exact I]. apply L.
  apply (directory_ledger_safe ["0005_a.sql"; "0005_b.sql"]%string).
  repeat constructor.
Defined.

(** [own_transaction_all_or_nothing] on a body that creates a table inside
    its own transaction and then breaks. *)
Lemma own_transaction_all_or_nothing_witness :
  let c := connect {| user_data := ["t"%string]; schema_version := Some [] |} in
  exists c' out,
    apply_migration Example.guarded c "0001_a.sql" 1 = (false, c', out) /\
    c' = c.
Proof.
  cbv zeta. eexists _, _. split; [reflexivity|].
  exact (own_transaction_all_or_nothing Example.guarded
           (connect {| user_data := ["t"%string]; schema_version := Some [] |})
           "0001_a.sql" 1 "-- sql"%string
           [Example.add_table "a"; Example.broken] _ _
           eq_refl eq_refl eq_refl).
Defined.

(** ** [main] *)

(** X5: the run does not depend on the order in which the file system
    lists the directory: exit status, store and output are the same for
    every listing of the same entries. *)
Theorem run_independent_of_listing {data : Type} (w : world data)
    (db : database data) (entries listing : list string) :
  migrations_dir w = Some entries ->
  Permutation entries listing ->
  main (relisted listing w) db = main w db.
Proof.
  intros D P.
  apply (main_permutation (relisted listing w) w db listing entries);
    auto using Permutation_sym.
Qed.

(** [run_independent_of_listing] on the three padded units. *)
Lemma run_independent_of_listing_witness :
  let w := Example.padded ["0001_a.sql"; "0003_b.sql"; "0004_c.sql"]%string in
  main (relisted ["0003_b.sql"; "0001_a.sql"; "0004_c.sql"]%string w)
       Example.fresh =
  main w Example.fresh.
Proof.
  cbv zeta.
  apply (run_independent_of_listing
           (Example.padded ["0001_a.sql"; "0003_b.sql"; "0004_c.sql"]%string)
           Example.fresh ["0001_a.sql"; "0003_b.sql"; "0004_c.sql"]%string);
    [reflexivity|apply perm_swap].
Defined.

Lemma ledger_rows_start {data : Type} (db : database data)
    (rows : list VersionRecord) :
  schema_version (create_if_not_exists db) = Some rows ->
  ledger_rows (connect db) = rows.
Proof.
  unfold create_if_not_exists, ledger_rows, visible. simpl.
  destruct (schema_version db) as [r|] eqn:E; simpl; rewrite ?E; congruence.
Qed.


Section Untouched.

Context {data : Type} (w : world data).
Implicit Types (c : connection data).

Lemma apply_migration_first_line c f v :
  exists tl, snd (apply_migration w c f v) = Applying v f :: tl.
Proof.
  unfold apply_migration.
  destruct (open_read w f) as [text sql| |]; [|simpl; eauto..].
  destruct (exec_statement c Begin) as [c1|]; [|simpl; eauto].
  destruct (executescript c1 sql) as [c2 [|]]; [|simpl; eauto].
  destruct (insert_version c2 (record_of w f v)) as [[| | |]|c3];
    simpl; eauto.
Qed.

(** A loop that starts no application leaves the connection alone. *)
Lemma migrate_loop_idle_run current files :
  forall c n,
    attempted (printed (migrate_loop w current files c n)) = [] ->
    conn_after (migrate_loop w current files c n) = c /\
    applied_count (migrate_loop w current files c n) = n /\
    ending (migrate_loop w current files c n) = Completed.
Proof.
  induction files as [|f files IH]; intros c n; [simpl; auto|].
  cbn [migrate_loop].
  destruct (Name.parse_version f) as [v|]; [|apply IH].
  destruct (v >? current); [|apply IH].
  destruct (apply_migration_first_line c f v) as [tl E].
  destruct (apply_migration w c f v) as [[[|] c'] out]; simpl in E; subst out;
    cbn [printed app attempted]; discriminate.
Qed.

End Untouched.

(** X7: a run that starts no application (nothing above the current
    version, only malformed names, no [*.sql] file, or no directory)
    applies nothing and leaves the application's data and the recorded
    versions as they are; a database that has its ledger table is left
    exactly as it is. *)
Theorem nothing_attempted_store_untouched {data : Type} (w : world data)
    (db : database data) :
  let m := main w db in
  attempted (stdout m) = [] ->
  user_data (store m) = user_data db /\
  versions (store m) = versions db /\
  applied m = 0%nat /\
  (schema_version db <> None -> store m = db).
Proof.
  cbv zeta. intros A. destruct (migrations_dir w) as [entries|] eqn:D.
  - destruct (main_of_loop w db entries D) as (_ & St & Ap & _).
    destruct (main_observed w db entries D) as (At & _).
    rewrite At in A. unfold loop_of in *.
    destruct (migrate_loop_idle_run w _ _ _ _ A) as (C & N & En).
    rewrite St, Ap, En, C, N. simpl. rewrite create_if_not_exists_again.
    unfold create_if_not_exists.
    destruct (schema_version db) as [rows|] eqn:E; simpl;
      unfold versions; simpl; rewrite ?E; repeat split; auto.
    intros H. now contradiction H.
  - rewrite (main_missing_directory w db D). simpl. auto.
Qed.

(** [nothing_attempted_store_untouched] on a second run over the three
    padded units. *)
Lemma nothing_attempted_store_untouched_witness :
  let w := Example.padded ["0001_a.sql"; "0003_b.sql"; "0004_c.sql"]%string in
  let db := store (main w Example.fresh) in
  attempted (stdout (main w db)) = [] /\ store (main w db) = db.
Proof.
  cbv zeta. split; [reflexivity|].
  apply (nothing_attempted_store_untouched
           (Example.padded ["0001_a.sql"; "0003_b.sql"; "0004_c.sql"]%string)
           (store (main (Example.padded
                           ["0001_a.sql"; "0003_b.sql"; "0004_c.sql"]%string)
                        Example.fresh)));
    [reflexivity|discriminate].
Defined.



(** ** Candidates that cannot be applied, and directories that can *)

(** X9: a unit that is listed but whose file is gone when its turn
    comes ([open] raises [FileNotFoundError]) makes the run exit with 1
    when it is a candidate; when the run gets as far as that unit, its
    output ends with the start of the application, the diagnostic "file
    not found" and the version it stopped at. *)
Theorem missing_file_halts {data : Type} (w : world data)
    (db : database data) (entries : list string) (f : string) (v : Z) :
  migrations_dir w = Some entries ->
  NoDup entries ->
  In f entries -> Name.is_sql f = true ->
  Name.parse_version f = Some v ->
  current_version db < v ->
  open_read w f = FileNotFound ->
  let m := main w db in
  exit_code m = 1 /\
  (In (Applying v f) (stdout m) ->
   exists before,
     stdout m = before ++ [Applying v f; FailedFileNotFound v; StoppedAt v]).
Proof.
  intros D N I Q P G R. cbv zeta.
  assert (Fi : In f (sorted (glob_sql entries))).
  { apply sorted_In, filter_In. auto. }
  pose proof (sorted_glob_NoDup entries N) as Nd.
  apply in_split in Fi as (pre & post & Sp). rewrite Sp in Nd.
  apply NoDup_remove_2 in Nd.
  destruct (main_of_loop w db entries D) as (Ex & _ & _ & Out).
  destruct (loop_of_start db) as (I0 & rows0 & L0 & _).
  pose proof (migrate_loop_lines w (current_version db) pre
                (connect (create_if_not_exists db)) 0%nat)
    as (_ & Ap & _).
  pose proof (migrate_loop_reach w (current_version db) pre f post v P G
                (connect (create_if_not_exists db)) 0%nat) as Rc.
  cbv zeta in Rc, Ap. rewrite <- Sp in Rc. fold (loop_of w db entries) in Rc.
  rewrite Sp in Out at 1.
  assert (Shape : stdout (main w db) =
                  CurrentVersion (current_version db) ::
                  match ending (loop_of w db entries) with
                  | Completed => printed (loop_of w db entries) ++
                                 summary (loop_of w db entries)
                  | Failed _ => printed (loop_of w db entries)
                  end).
  { rewrite Out. now destruct pre. }
  clear Out. rewrite Ex, Shape.
  destruct (ending (migrate_loop w (current_version db) pre _ 0))
    as [|u] eqn:E1.
  - unfold apply_migration in Rc. rewrite R in Rc.
    destruct Rc as (-> & _ & ->). split; [reflexivity|]. intros _.
    exists (CurrentVersion (current_version db) ::
            printed (migrate_loop w (current_version db) pre
                       (connect (create_if_not_exists db)) 0)).
    reflexivity.
  - rewrite Rc, E1. split; [reflexivity|].
    intros [H|H]; [discriminate|]. exfalso.
    apply Ap in H as (H & _). apply Nd, in_or_app. now left.
Qed.

(** [missing_file_halts] on a directory whose second unit is gone. *)
Lemma missing_file_halts_witness :
  let m := main Example.vanished Example.fresh in
  open_read Example.vanished "0002_gone.sql" = FileNotFound /\
  exit_code m = 1 /\
  attempted (stdout m) = [1; 2] /\ succeeded (stdout m) = [1].
Proof.
  cbv zeta. split; [reflexivity|].
  assert (Nd : NoDup ["0001_a.sql"; "0002_gone.sql"; "0003_c.sql"]%string).
  { repeat constructor; simpl; intuition discriminate. }
  destruct (missing_file_halts Example.vanished Example.fresh
              ["0001_a.sql"; "0002_gone.sql"; "0003_c.sql"]%string
              "0002_gone.sql" 2 eq_refl Nd
              (or_intror (or_introl eq_refl)) eq_refl eq_refl eq_refl eq_refl)
    as (Ex & _).
  split; [exact Ex|]. split; reflexivity.
Defined.

(** X10: a version outside the 64 bits of SQLite's INTEGER is never
    recorded: no application of such a version goes through, a ledger
    without it stays without it, and a candidate that carries it makes
    the run exit with 1. *)
Theorem oversized_version_never_recorded {data : Type} (w : world data)
    (db : database data) (v : Z) :
  fits_int64 v = false ->
  let m := main w db in
  ~ In v (succeeded (stdout m)) /\
  (~ In v (versions db) -> ~ In v (versions (store m))) /\
  (forall entries f,
     migrations_dir w = Some entries -> In f entries ->
     Name.is_sql f = true -> Name.parse_version f = Some v ->
     current_version db < v -> exit_code m = 1).
Proof.
  intros Fit. cbv zeta.
  assert (Ns : ~ In v (succeeded (stdout (main w db)))).
  { destruct (migrations_dir w) as [entries|] eqn:D.
    - destruct (main_observed w db entries D) as (_ & -> & _).
      destruct (loop_of_facts w db entries) as ((_ & _ & Fs) & _).
      intros H. rewrite Forall_forall in Fs. apply Fs in H. congruence.
    - rewrite (main_missing_directory w db D). simpl. tauto. }
  split; [exact Ns|]. split.
  - intros Nv. destruct (migrations_dir w) as [entries|] eqn:D.
    + destruct (main_of_loop w db entries D) as (_ & St & _).
      assert (Lk : lacks v (connect (create_if_not_exists db))).
      { unfold lacks, visible. simpl. now rewrite versions_create. }
      apply (migrate_loop_lacks w (current_version db)
               (sorted (glob_sql entries)) v Fit _ 0%nat) in Lk.
      fold (loop_of w db entries) in Lk. destruct Lk as [Lk _].
      rewrite St. destruct (ending (loop_of w db entries));
        [now rewrite versions_create|exact Lk].
    + now rewrite (main_missing_directory w db D).
  - intros entries f D I Q P G.
    assert (Fi : In f (sorted (glob_sql entries))).
    { apply sorted_In, filter_In. auto. }
    apply in_split in Fi as (pre & post & Sp).
    destruct (main_of_loop w db entries D) as (-> & _).
    pose proof (migrate_loop_reach w (current_version db) pre f post v P G
                  (connect (create_if_not_exists db)) 0%nat) as Rc.
    cbv zeta in Rc. rewrite <- Sp in Rc.
    fold (loop_of w db entries) in Rc.
    destruct (ending (migrate_loop w (current_version db) pre _ 0))
      as [|u] eqn:E1.
    + destruct (apply_migration w _ f v) as [[[|] c'] out] eqn:A.
      * destruct (apply_migration_lines w _ f v _ _ _ A)
          as (_ & _ & _ & _ & _ & _ & Fi). congruence.
      * destruct Rc as (-> & _). reflexivity.
    + now rewrite Rc, E1.
Qed.

(** [oversized_version_never_recorded] on the ordinal 2^63. *)
Lemma oversized_version_never_recorded_witness :
  let m := main Example.too_large Example.fresh in
  fits_int64 9223372036854775808 = false /\
  exit_code m = 1 /\ versions (store m) = [] /\
  user_data (store m) = ["big"%string].
Proof.
  cbv zeta. split; [reflexivity|].
  destruct (oversized_version_never_recorded Example.too_large Example.fresh
              9223372036854775808 eq_refl) as (_ & _ & Ex).
  split; [|split; reflexivity].
  apply (Ex ["9223372036854775808_big.sql"%string]
            "9223372036854775808_big.sql"%string);
    try reflexivity. now left.
Defined.



(** ** Names written by the convention *)

Section Conventional.

Local Open Scope string_scope.

Lemma string_length_append (a b : string) :
  String.length (a ++ b) = (String.length a + String.length b)%nat.
Proof. induction a as [|c a IH]; simpl; congruence. Qed.

Lemma rfind_dot_sql (s : string) :
  Name.rfind_dot (s ++ ".sql") = Some (String.length s).
Proof.
  induction s as [|c s IH]; [reflexivity|].
  cbn [append Name.rfind_dot String.length]. now rewrite IH.
Qed.

Lemma substring_whole_prefix (s t : string) :
  substring 0 (String.length s) (s ++ t) = s.
Proof.
  induction s as [|c s IH]; simpl.
  - now destruct t.
  - now rewrite IH.
Qed.

Lemma substring_past_prefix (s t : string) (n : nat) :
  substring (String.length s) n (s ++ t) = substring 0 n t.
Proof. induction s as [|c s IH]; simpl; auto. Qed.

(** [stem] takes the extension off. *)
Lemma stem_sql (s : string) : s <> "" -> Name.stem (s ++ ".sql") = s.
Proof.
  intros Ne. unfold Name.stem. rewrite rfind_dot_sql, string_length_append.
  destruct s as [|c s]; [congruence|].
  assert (B : (Nat.ltb 0 (String.length (String c s)) &&
               Nat.ltb (String.length (String c s))
                       (String.length (String c s) + String.length ".sql" - 1))%bool
              = true).
  { apply andb_true_iff. split; apply Nat.ltb_lt; simpl; lia. }
  rewrite B. apply substring_whole_prefix.
Qed.

Lemma is_sql_append (s : string) : Name.is_sql (s ++ ".sql") = true.
Proof.
  unfold Name.is_sql. rewrite string_length_append. cbn [String.length].
  replace (String.length s + 4 - 4)%nat with (String.length s) by lia.
  rewrite substring_past_prefix. apply andb_true_iff.
  split; [apply Nat.leb_le; lia|reflexivity].
Qed.

Lemma digit_not_underscore (c : ascii) :
  Name.is_digit c = true -> Ascii.eqb c "_" = false.
Proof.
  intros D. destruct (Ascii.eqb_spec c "_") as [->|]; [discriminate|reflexivity].
Qed.

Lemma split_first_before_underscore (o rest : string) :
  all_digits o = true -> Name.split_first (o ++ String "_" rest) = o.
Proof.
  unfold all_digits. induction o as [|c o IH]; simpl; [reflexivity|].
  intros H. apply andb_true_iff in H as [D H].
  now rewrite (digit_not_underscore c D), IH.
Qed.

Lemma split_first_ordinal (o rest : string) :
  all_digits o = true -> Name.split_first (o ++ "_" ++ rest) = o.
Proof. exact (split_first_before_underscore o rest). Qed.

Lemma digits_total (o : string) :
  all_digits o = true ->
  forall acc, 0 <= acc -> exists v, Name.digits acc o = Some v /\ 0 <= v.
Proof.
  unfold all_digits.
  induction o as [|c o IH]; cbn [Name.digits forallb list_ascii_of_string];
    intros H acc Pos.
  - now exists acc.
  - apply andb_true_iff in H as [D H]. rewrite D.
    apply IH; [exact H|]. apply digit_range in D. lia.
Qed.

Lemma py_int_of_digits (o : string) :
  all_digits o = true -> o <> "" -> Name.py_int o = Name.digits 0 o.
Proof.
  intros D Ne.
  destruct (digits_total o D 0 (Z.le_refl 0)) as (v & E & _).
  unfold Name.py_int.
  rewrite (all_digits_lstrip _ D), (all_digits_rstrip _ D).
  destruct o as [|c o]; [congruence|].
  unfold all_digits in D. simpl in D. apply andb_true_iff in D as [Dc _].
  destruct c as [[] [] [] [] [] [] [] []]; try discriminate Dc; reflexivity.
Qed.

End Conventional.

(** X12: a name written by the convention, a non-empty run of digits,
    an underscore, any description and [.sql], is picked up by the glob;
    its stem is the name without the extension, whatever dots the
    description holds, and its version is the decimal value of the
    digits, which is not negative.  Zeros in front of the digits do not
    change the version. *)
Theorem conventional_name_version (ordinal description : string) :
  all_digits ordinal = true ->
  ordinal <> EmptyString ->
  Name.is_sql (conventional ordinal description) = true /\
  Name.stem (conventional ordinal description) =
    (ordinal ++ "_" ++ description)%string /\
  (exists v, Name.parse_version (conventional ordinal description) = Some v /\
             Name.digits 0 ordinal = Some v /\ 0 <= v) /\
  Name.parse_version (conventional (String "0" ordinal) description) =
  Name.parse_version (conventional ordinal description).
Proof.
  intros D Ne.
  assert (Shape : forall o, conventional o description =
                            ((o ++ "_" ++ description) ++ ".sql")%string).
  { intros o. unfold conventional. now rewrite !append_assoc. }
  assert (St : forall o, o <> EmptyString ->
                         Name.stem (conventional o description) =
                         (o ++ "_" ++ description)%string).
  { intros o No. rewrite Shape. apply stem_sql.
    destruct o; [congruence|discriminate]. }
  assert (Pv : forall o, all_digits o = true -> o <> EmptyString ->
                         Name.parse_version (conventional o description) =
                         Name.digits 0 o).
  { intros o Do No. unfold Name.parse_version.
    rewrite (St o No), (split_first_ordinal _ _ Do).
    now apply py_int_of_digits. }
  split; [rewrite Shape; apply is_sql_append|].
  split; [now apply St|].
  destruct (digits_total ordinal D 0 (Z.le_refl 0)) as (v & E & Pos).
  split.
  - exists v. rewrite (Pv ordinal D Ne). auto.
  - rewrite (Pv ordinal D Ne), Pv; [reflexivity| |discriminate].
    unfold all_digits in *. simpl. exact D.
Qed.

(** [conventional_name_version] on [0001_initial.schema.sql]. *)
Lemma conventional_name_version_witness :
  all_digits "0001" = true /\
  Name.parse_version "0001_initial.schema.sql" = Some 1 /\
  Name.stem "0001_initial.schema.sql" = "0001_initial.schema"%string.
Proof.
  split; [reflexivity|].
  destruct (conventional_name_version "0001" "initial.schema" eq_refl)
    as (_ & St & _ & _); [discriminate|].
  split; [reflexivity|exact St].
Defined.

(** [get_current_version_again] on a connection to a database without
    ledger. *)
Lemma get_current_version_again_witness :
  let c := connect Example.fresh in
  txn c = None /\
  txn (fst (get_current_version c)) = None /\
  get_current_version (fst (get_current_version c)) =
  (fst (get_current_version c), 0).
Proof.
  cbv zeta. split; [reflexivity|].
  destruct (get_current_version_again (connect Example.fresh))
    as (Again & _ & _ & _ & Idle).
  split; [now apply Idle|exact Again].
Defined.

